(** * LlamaMicoContext: sequence slots, crop boundary and antiprompt

    A shallow embedding of [miloco_ai_engine/core/utils/mico-common.cpp]
    and of the declarations of [mico-common.h] it relies on.

    - [std::map<size_t, T>] is a [gmap Z T] whose keys are [size_t] values;
      its in-order traversal is [map_in_order].
    - [int32_t] and [size_t] are [Z] with the wrap-around written out
      ([Cxx.to_int32], [Cxx.to_size_t]).
    - The member functions run in the state monad [op]; the state holds the
      context object and the log of mutex events of the calling thread.
    - What the inference runtime provides (model loading, tokenizer, chat
      template renderer, vision loader) is a record [llama_runtime]. *)

From Stdlib Require Import ZArith Lia.
From stdpp Require Import gmap strings list sorting.

Local Open Scope Z_scope.

(** ** Machine integers *)

Module Cxx.

(** [size_t] is 64 bits wide on the supported platforms (x64). *)
Definition size_modulus : Z := 2 ^ 64.
Definition SIZE_MAX : Z := size_modulus - 1.

(** Conversion of a mathematical integer to [size_t]. *)
Definition to_size_t (z : Z) : Z := z mod size_modulus.

(** [a - b] and [a + b] on [size_t]. *)
Definition size_sub (a b : Z) : Z := to_size_t (a - b).
Definition size_add (a b : Z) : Z := to_size_t (a + b).

(** [a >= b] and [a <= b] where both operands are [size_t]. *)
Definition size_ge (a b : Z) : bool := to_size_t b <=? to_size_t a.
Definition size_le (a b : Z) : bool := to_size_t a <=? to_size_t b.

Definition is_int32 (z : Z) : Prop := - 2 ^ 31 ≤ z < 2 ^ 31.

(** Conversion to [int32_t] (two's complement). *)
Definition to_int32 (z : Z) : Z := (z + 2 ^ 31) mod 2 ^ 32 - 2 ^ 31.

End Cxx.

(** ** Data model ([mico-common.h]) *)

Definition llama_token : Type := Z.
Definition llama_tokens : Type := list llama_token.

(** A decoded image buffer attached to a sequence. *)
Definition bitmap : Type := list Z.

Record LlamaSeqState := {
  last_token : llama_token;
  n_past : Z;
  is_infering : bool;
  respone : string;
  bitmaps : list bitmap
}.

(** The member initialisers of [LlamaSeqState]. *)
Definition LlamaSeqState_init : LlamaSeqState :=
  {| last_token := -1; n_past := 0; is_infering := false;
     respone := EmptyString; bitmaps := [] |}.

(** Handle of a loaded vision context ([mtmd_context]). *)
Record mtmd_context := { mtmd_id : Z }.

Record LlamaMicoContext := {
  ctx_vision : option mtmd_context;
  crop_tokens_lable : llama_tokens;
  n_batch : Z;
  n_seq_max : Z;
  n_usage_context : Z;
  kv_cache_seq : Z;
  process_seqs : gmap Z LlamaSeqState;
  cmpl_to_seq : gmap Z Z;
  antiprompt_tokens : llama_tokens;
  n_threads : Z
}.

(** ** Mutexes and the calling thread *)

Inductive mutex := process_seqs_mutex | cmpl_to_seq_mutex.

Inductive lock_event := Acquire (m : mutex) | Release (m : mutex).

Record thread := {
  self : LlamaMicoContext;
  events : list lock_event
}.

Definition op (A : Type) : Type := thread → A * thread.

Definition op_ret {A} (a : A) : op A := λ t, (a, t).

Definition op_bind {A B} (c : op A) (k : A → op B) : op B :=
  λ t, let '(a, t1) := c t in k a t1.

Notation "x <- c ;; k" := (op_bind c (λ x, k))
  (at level 100, c at next level, right associativity, only parsing).
Notation "c ;;; k" := (op_bind c (λ _, k))
  (at level 100, right associativity, only parsing).

Definition emit (e : lock_event) : op unit :=
  λ t, (tt, {| self := self t; events := events t ++ [e] |}).

(** [std::lock_guard<std::mutex> lock(m);] followed by the rest of the
    function body: the mutex is released when the body has produced its
    result. *)
Definition lock_guard {A} (m : mutex) (body : op A) : op A :=
  emit (Acquire m) ;;;
  r <- body ;;
  emit (Release m) ;;;
  op_ret r.

Definition read {A} (f : LlamaMicoContext → A) : op A := λ t, (f (self t), t).

Definition set_process_seqs (m : gmap Z LlamaSeqState) (c : LlamaMicoContext)
  : LlamaMicoContext :=
  {| ctx_vision := ctx_vision c; crop_tokens_lable := crop_tokens_lable c;
     n_batch := n_batch c; n_seq_max := n_seq_max c;
     n_usage_context := n_usage_context c; kv_cache_seq := kv_cache_seq c;
     process_seqs := m; cmpl_to_seq := cmpl_to_seq c;
     antiprompt_tokens := antiprompt_tokens c; n_threads := n_threads c |}.

Definition set_cmpl_to_seq (m : gmap Z Z) (c : LlamaMicoContext)
  : LlamaMicoContext :=
  {| ctx_vision := ctx_vision c; crop_tokens_lable := crop_tokens_lable c;
     n_batch := n_batch c; n_seq_max := n_seq_max c;
     n_usage_context := n_usage_context c; kv_cache_seq := kv_cache_seq c;
     process_seqs := process_seqs c; cmpl_to_seq := m;
     antiprompt_tokens := antiprompt_tokens c; n_threads := n_threads c |}.

Definition update (f : LlamaMicoContext → LlamaMicoContext) : op unit :=
  λ t, (tt, {| self := f (self t); events := events t |}).

(** *** [std::map] primitives *)

(** [m[k]] on a [std::map]: the entry is value-initialised when absent. *)
Definition map_subscript {V} (dflt : V) (k : Z) (m : gmap Z V) : V * gmap Z V :=
  match m !! k with
  | Some v => (v, m)
  | None => (dflt, <[k := dflt]> m)
  end.

(** [m.count(k)] *)
Definition map_count {V} (k : Z) (m : gmap Z V) : Z :=
  match m !! k with Some _ => 1 | None => 0 end.

(** Traversal from [begin()] to [end()]: ascending keys. *)
Definition key_le {V} (a b : Z * V) : Prop := a.1 ≤ b.1.

Global Instance key_le_dec {V} (a b : Z * V) : Decision (key_le a b) :=
  Z_le_dec a.1 b.1.

Definition map_in_order {V} (m : gmap Z V) : list (Z * V) :=
  merge_sort key_le (map_to_list m).

(** [process_seqs[seq_id]]; the result is the reference to the entry,
    that is its key. *)
Definition process_seqs_subscript (seq_id : Z) : op Z :=
  update (λ c, set_process_seqs
                 (map_subscript LlamaSeqState_init seq_id (process_seqs c)).2 c) ;;;
  op_ret seq_id.

(** [cmpl_to_seq[cmpl_id]] read as a value. *)
Definition cmpl_to_seq_subscript (cmpl_id : Z) : op Z :=
  λ t, let r := map_subscript 0 cmpl_id (cmpl_to_seq (self t)) in
       (r.1, {| self := set_cmpl_to_seq r.2 (self t); events := events t |}).

(** The state a reference obtained from [get_seq_state] designates. *)
Definition seq_state_of (c : LlamaMicoContext) (seq_id : Z) : LlamaSeqState :=
  default LlamaSeqState_init (process_seqs c !! seq_id).

(** [ref.is_infering.load()] *)
Definition load_is_infering (ref : Z) : op bool :=
  read (λ c, is_infering (seq_state_of c ref)).

(** [ref.is_infering.store(b)] *)
Definition with_is_infering (ref : Z) (b : bool) (c : LlamaMicoContext)
  : LlamaMicoContext :=
  let s := seq_state_of c ref in
  set_process_seqs
    (<[ref := {| last_token := last_token s; n_past := n_past s;
                 is_infering := b; respone := respone s;
                 bitmaps := bitmaps s |}]> (process_seqs c)) c.

Definition store_is_infering (ref : Z) (b : bool) : op unit :=
  update (with_is_infering ref b).

(** ** Member functions of [LlamaMicoContext] *)

Definition get_seq_state (seq_id : Z) : op Z :=
  lock_guard process_seqs_mutex (process_seqs_subscript seq_id).

(** The loop of [set_seq_id] over the remaining values of [i]; the result
    is [seq_id] when the loop is left. *)
Fixpoint set_seq_id_scan (slots : list Z) : op Z :=
  match slots with
  | [] => op_ret (-1)
  | i :: rest =>
      ref <- get_seq_state (Cxx.to_size_t i) ;;
      busy <- load_is_infering ref ;;
      if negb busy then op_ret i else set_seq_id_scan rest
  end.

Definition set_seq_id (cmpl_id : Z) : op Z :=
  lock_guard cmpl_to_seq_mutex (
    n <- read n_seq_max ;;
    seq_id <- set_seq_id_scan (seqZ 0 n) ;;
    (if bool_decide (seq_id ≠ -1)
     then update (λ c, set_cmpl_to_seq (<[cmpl_id := seq_id]> (cmpl_to_seq c)) c)
     else op_ret tt) ;;;
    op_ret seq_id).

Definition get_seq_id (cmpl_id : Z) : op Z :=
  lock_guard cmpl_to_seq_mutex (
    count <- read (λ c, map_count cmpl_id (cmpl_to_seq c)) ;;
    if 0 <? count then cmpl_to_seq_subscript cmpl_id else op_ret (-1)).

(** The loop of [erase_seq]: [to_erase] after the traversal. *)
Fixpoint erase_seq_scan (entries : list (Z * Z)) (seq_id to_erase : Z) : Z :=
  match entries with
  | [] => to_erase
  | it :: rest =>
      if it.2 =? seq_id then it.1 else erase_seq_scan rest seq_id to_erase
  end.

Definition erase_seq (seq_id : Z) : op bool :=
  lock_guard cmpl_to_seq_mutex (
    entries <- read (λ c, map_in_order (cmpl_to_seq c)) ;;
    let to_erase := erase_seq_scan entries seq_id (Cxx.to_size_t (-1)) in
    (if Cxx.size_ge to_erase 0
     then update (λ c, set_cmpl_to_seq (delete to_erase (cmpl_to_seq c)) c)
     else op_ret tt) ;;;
    op_ret (Cxx.size_ge to_erase 0)).

(** [std::equal(first1, last1, first2)] on the range [xs] and the
    sequence starting at [ys]. *)
Fixpoint std_equal (xs ys : llama_tokens) : bool :=
  match xs, ys with
  | [], _ => true
  | x :: xs', y :: ys' => (x =? y) && std_equal xs' ys'
  | _ :: _, [] => false
  end.

Definition check_antiprompt (generated_tokens : llama_tokens) : op bool :=
  anti <- read antiprompt_tokens ;;
  if bool_decide (anti = []) || (length generated_tokens <? length anti)%nat
  then op_ret false
  else op_ret (std_equal
                 (drop (length generated_tokens - length anti)%nat generated_tokens)
                 anti).

(** ** Construction *)

(** [std::vector::operator[]] reads inside the vector only; any other
    index is undefined behaviour, reported as [OutOfBounds]. *)
Inductive outcome (A : Type) :=
| Ok (a : A)
| ProcessExit (code : Z)
| OutOfBounds (index : Z)
| OutOfFuel.
Arguments Ok {A} a.
Arguments ProcessExit {A} code.
Arguments OutOfBounds {A} index.
Arguments OutOfFuel {A}.

Definition vector_at {A} (v : list A) (k : Z) : outcome A :=
  match v !! Z.to_nat k with
  | Some x => Ok x
  | None => OutOfBounds k
  end.

(** The inner loop of the boundary search from index [j] on, [rest]
    being [placeholder_tokens[j..]]; the result is [found]. *)
Fixpoint crop_match_at (label_tokens : llama_tokens) (i j : Z)
    (rest : llama_tokens) : outcome bool :=
  match rest with
  | [] => Ok true
  | p :: rest' =>
      match vector_at label_tokens (Cxx.size_add i j) with
      | Ok x =>
          if negb (x =? p) then Ok false
          else crop_match_at label_tokens i (Cxx.size_add j 1) rest'
      | ProcessExit code => ProcessExit code
      | OutOfBounds k => OutOfBounds k
      | OutOfFuel => OutOfFuel
      end
  end.

(** The outer loop from index [i] on, [bound] being
    [label_tokens.size() - placeholder_tokens.size()] in [size_t]; the
    result is [crop_tokens_lable] when the loop is left. *)
Fixpoint crop_search (fuel : nat) (label_tokens placeholder_tokens : llama_tokens)
    (bound i : Z) : outcome llama_tokens :=
  match fuel with
  | O => OutOfFuel
  | S fuel' =>
      if Cxx.size_le i bound then
        match crop_match_at label_tokens i 0 placeholder_tokens with
        | Ok true => Ok (take (Z.to_nat i) label_tokens)
        | Ok false =>
            crop_search fuel' label_tokens placeholder_tokens bound
              (Cxx.size_add i 1)
        | ProcessExit code => ProcessExit code
        | OutOfBounds k => OutOfBounds k
        | OutOfFuel => OutOfFuel
        end
      else Ok []
  end.

(** Every iteration of the outer loop either leaves it or moves [i] one
    step further into [label_tokens], so [size() + 2] tests of the loop
    condition are enough (see [crop_boundary_fuel]). *)
Definition crop_boundary (label_tokens placeholder_tokens : llama_tokens)
  : outcome llama_tokens :=
  crop_search (S (S (length label_tokens))) label_tokens placeholder_tokens
    (Cxx.size_sub (Z.of_nat (length label_tokens))
                  (Z.of_nat (length placeholder_tokens)))
    0.

Module Params.
(** The fields of [common_params] the constructor reads. *)
Record common_params := {
  cpuparams_n_threads : Z;
  n_batch : Z;
  n_usage_context : Z;
  n_seq_max : Z;
  cache_seq : Z;
  chat_template : string;
  use_jinja : bool;
  mmproj_path : string;
  mmproj_use_gpu : bool;
  verbosity : Z
}.
End Params.
Abbreviation common_params := Params.common_params.

Inductive ggml_log_level := GGML_LOG_LEVEL_INFO | GGML_LOG_LEVEL_DEBUG.

Record mtmd_context_params := {
  use_gpu : bool;
  print_timings : bool;
  mtmd_n_threads : Z;
  mtmd_verbosity : ggml_log_level
}.

(** [common_init_result]: whether the model and the context pointers are
    non-null. *)
Record common_init_result := { has_model : bool; has_context : bool }.

(** What a function of the runtime does when it is handed a null
    pointer: it returns, or the process ends in it with that status. *)
Inductive null_call := Returns | Aborts (code : Z).

(** The inference runtime the constructor calls into. The last three
    fields are [llama_model_get_vocab(nullptr)],
    [common_sampler_init(nullptr, ...)] and
    [new LlamaMemoryScheduler(nullptr)]. *)
Record llama_runtime := {
  common_init_from_params : common_params → common_init_result;
  llama_model_chat_template : option string;
  common_tokenize : string → llama_tokens;
  common_chat_format_example : string → string → string → string;
  mtmd_init_from_file : string → mtmd_context_params → option mtmd_context;
  llama_model_get_vocab_null : null_call;
  common_sampler_init_null : null_call;
  LlamaMemoryScheduler_null : null_call
}.

(** A call that receives a pointer: with the object present it returns. *)
Definition handed (present : bool) (on_null : null_call) : null_call :=
  if present then Returns else on_null.

(** The calls the constructor makes on [model] and [lctx] before it
    tests them: [llama_model_get_vocab(model)],
    [common_sampler_init(model, ...)], [new LlamaMemoryScheduler(lctx)]. *)
Definition calls_before_null_test (rt : llama_runtime)
    (llama_init : common_init_result) : null_call :=
  match handed (has_model llama_init) (llama_model_get_vocab_null rt) with
  | Aborts code => Aborts code
  | Returns =>
      match handed (has_model llama_init) (common_sampler_init_null rt) with
      | Aborts code => Aborts code
      | Returns => handed (has_context llama_init) (LlamaMemoryScheduler_null rt)
      end
  end.

(** The [mtmd_context_params] that [init_vision_context] fills in. *)
Definition vision_context_params (params : common_params) : mtmd_context_params :=
  {| use_gpu := Params.mmproj_use_gpu params;
     print_timings := true;
     mtmd_n_threads := Params.cpuparams_n_threads params;
     mtmd_verbosity := if 0 <? Params.verbosity params
                       then GGML_LOG_LEVEL_DEBUG else GGML_LOG_LEVEL_INFO |}.

Definition init_vision_context (rt : llama_runtime) (params : common_params)
    (c : LlamaMicoContext) : outcome LlamaMicoContext :=
  let clip_path := Params.mmproj_path params in
  let mparams := vision_context_params params in
  match mtmd_init_from_file rt clip_path mparams with
  | None => ProcessExit 1
  | Some v =>
      Ok {| ctx_vision := Some v; crop_tokens_lable := crop_tokens_lable c;
            n_batch := n_batch c; n_seq_max := n_seq_max c;
            n_usage_context := n_usage_context c;
            kv_cache_seq := kv_cache_seq c;
            process_seqs := process_seqs c; cmpl_to_seq := cmpl_to_seq c;
            antiprompt_tokens := antiprompt_tokens c;
            n_threads := n_threads c |}
  end.

Definition select_antiprompt (rt : llama_runtime) (params : common_params)
  : llama_tokens :=
  if String.eqb (Params.chat_template params) "vicuna"
  then common_tokenize rt "ASSISTANT:"
  else if String.eqb (Params.chat_template params) "deepseek"
  then common_tokenize rt "###"
  else [].

(** The constructor [LlamaMicoContext::LlamaMicoContext]. *)
Definition LlamaMicoContext_new (rt : llama_runtime) (params : common_params)
  : outcome LlamaMicoContext :=
  let llama_init := common_init_from_params rt params in
  let n := Cxx.to_int32 (Params.n_seq_max params - Params.cache_seq params) in
  match calls_before_null_test rt llama_init with
  | Aborts code => ProcessExit code
  | Returns =>
  if negb (has_model llama_init) || negb (has_context llama_init)
  then ProcessExit 1
  else if bool_decide (llama_model_chat_template rt = None)
          && bool_decide (Params.chat_template params = EmptyString)
  then ProcessExit 1
  else
    let placeholder := "*=*"%string in
    let placeholder_tokens := common_tokenize rt placeholder in
    let user_label :=
      common_chat_format_example rt (Params.chat_template params)
                                 "user" placeholder in
    let label_tokens := common_tokenize rt user_label in
    match crop_boundary label_tokens placeholder_tokens with
    | Ok crop =>
        match
          init_vision_context rt params
            {| ctx_vision := None; crop_tokens_lable := crop;
               n_batch := Params.n_batch params; n_seq_max := n;
               n_usage_context := Params.n_usage_context params;
               kv_cache_seq := Params.cache_seq params;
               process_seqs := ∅; cmpl_to_seq := ∅;
               antiprompt_tokens := [];
               n_threads := Params.cpuparams_n_threads params |}
        with
        | Ok c =>
            Ok {| ctx_vision := ctx_vision c;
                  crop_tokens_lable := crop_tokens_lable c;
                  n_batch := n_batch c; n_seq_max := n_seq_max c;
                  n_usage_context := n_usage_context c;
                  kv_cache_seq := kv_cache_seq c;
                  process_seqs := process_seqs c;
                  cmpl_to_seq := cmpl_to_seq c;
                  antiprompt_tokens := select_antiprompt rt params;
                  n_threads := n_threads c |}
        | ProcessExit code => ProcessExit code
        | OutOfBounds k => OutOfBounds k
        | OutOfFuel => OutOfFuel
        end
    | ProcessExit code => ProcessExit code
    | OutOfBounds k => OutOfBounds k
    | OutOfFuel => OutOfFuel
    end
  end.

(** ** Callers *)

(** Modelled from the spec: the generation loop, which is not part of
    this file, "sets that flag after it begins consuming the slot"; it
    does so through the handle [get_seq_state] returns. *)
Definition begin_inference (seq_id : Z) : op unit :=
  ref <- get_seq_state (Cxx.to_size_t seq_id) ;;
  store_is_infering ref true.

(** A request reserves a slot and, when it got one, starts generating
    on it. *)
Definition admit_request (cmpl_id : Z) : op Z :=
  seq_id <- set_seq_id cmpl_id ;;
  (if bool_decide (seq_id ≠ -1) then begin_inference seq_id else op_ret tt) ;;;
  op_ret seq_id.

Fixpoint admit_requests (cmpl_ids : list Z) : op (list Z) :=
  match cmpl_ids with
  | [] => op_ret []
  | id :: rest =>
      s <- admit_request id ;;
      ss <- admit_requests rest ;;
      op_ret (s :: ss)
  end.

(** Reserve calls back to back, nothing in between. *)
Fixpoint reserve_all (cmpl_ids : list Z) : op (list Z) :=
  match cmpl_ids with
  | [] => op_ret []
  | id :: rest =>
      s <- set_seq_id id ;;
      ss <- reserve_all rest ;;
      op_ret (s :: ss)
  end.

(** ** Which mutexes a thread holds *)








(** The calls a thread can make on the context. *)
Inductive call :=
| GetSeqState (seq_id : Z)
| SetSeqId (cmpl_id : Z)
| GetSeqId (cmpl_id : Z)
| EraseSeq (seq_id : Z).

Definition perform (c : call) : op unit :=
  match c with
  | GetSeqState seq_id => get_seq_state seq_id ;;; op_ret tt
  | SetSeqId cmpl_id => set_seq_id cmpl_id ;;; op_ret tt
  | GetSeqId cmpl_id => get_seq_id cmpl_id ;;; op_ret tt
  | EraseSeq seq_id => erase_seq seq_id ;;; op_ret tt
  end.

Fixpoint perform_all (cs : list call) : op unit :=
  match cs with
  | [] => op_ret tt
  | c :: rest => perform c ;;; perform_all rest
  end.

(** The log of one pass of [get_seq_state]. *)
Definition state_section : list lock_event :=
  [Acquire process_seqs_mutex; Release process_seqs_mutex].

(** ** Concrete contexts and runtimes *)

(** A context with [n] slots and both maps empty. *)
Definition idle_context (n : Z) : LlamaMicoContext :=
  {| ctx_vision := None; crop_tokens_lable := []; n_batch := 512;
     n_seq_max := n; n_usage_context := 4096; kv_cache_seq := 0;
     process_seqs := ∅; cmpl_to_seq := ∅; antiprompt_tokens := [];
     n_threads := 1 |}.

Definition on (c : LlamaMicoContext) : thread := {| self := c; events := [] |}.

Definition with_mapping (m : gmap Z Z) (c : LlamaMicoContext) : LlamaMicoContext :=
  set_cmpl_to_seq m c.

Definition with_antiprompt (a : llama_tokens) (c : LlamaMicoContext)
  : LlamaMicoContext :=
  {| ctx_vision := ctx_vision c; crop_tokens_lable := crop_tokens_lable c;
     n_batch := n_batch c; n_seq_max := n_seq_max c;
     n_usage_context := n_usage_context c; kv_cache_seq := kv_cache_seq c;
     process_seqs := process_seqs c; cmpl_to_seq := cmpl_to_seq c;
     antiprompt_tokens := a; n_threads := n_threads c |}.

(** A tokenizer with one token per character. *)
Fixpoint char_tokenize (s : string) : llama_tokens :=
  match s with
  | EmptyString => []
  | String a s' => Z.of_nat (Ascii.nat_of_ascii a) :: char_tokenize s'
  end.

(** A renderer that wraps the content in role tags. *)
Definition tag_template (tmpl role content : string) : string :=
  ("<" ++ role ++ ">" ++ content ++ "</" ++ role ++ ">")%string.

(** A vision loader that finds no file under the empty path. *)
Definition load_vision (path : string) (mp : mtmd_context_params)
  : option mtmd_context :=
  if String.eqb path EmptyString then None else Some {| mtmd_id := 1 |}.

Definition toy_runtime : llama_runtime :=
  {| common_init_from_params := λ _, {| has_model := true; has_context := true |};
     llama_model_chat_template := Some "chatml"%string;
     common_tokenize := char_tokenize;
     common_chat_format_example := tag_template;
     mtmd_init_from_file := load_vision;
     llama_model_get_vocab_null := Returns;
     common_sampler_init_null := Returns;
     LlamaMemoryScheduler_null := Returns |}.

Definition toy_params (mmproj : string) (n_seq cache : Z) : common_params :=
  {| Params.cpuparams_n_threads := 4; Params.n_batch := 512;
     Params.n_usage_context := 4096; Params.n_seq_max := n_seq;
     Params.cache_seq := cache; Params.chat_template := EmptyString;
     Params.use_jinja := true; Params.mmproj_path := mmproj;
     Params.mmproj_use_gpu := false; Params.verbosity := 0 |}.

(** ** What the slot scan computes *)

(** [process_seqs[seq_id]] creating the entry when it is missing. *)
Definition touch (seq_id : Z) (c : LlamaMicoContext) : LlamaMicoContext :=
  set_process_seqs
    (map_subscript LlamaSeqState_init seq_id (process_seqs c)).2 c.

(** The slot the scan of [set_seq_id] stops at, [-1] when it runs to
    the end. *)
Fixpoint first_idle (c : LlamaMicoContext) (slots : list Z) : Z :=
  match slots with
  | [] => -1
  | i :: rest =>
      if is_infering (seq_state_of c (Cxx.to_size_t i))
      then first_idle c rest else i
  end.

(** The slots the scan looks at. *)
Fixpoint scanned (c : LlamaMicoContext) (slots : list Z) : list Z :=
  match slots with
  | [] => []
  | i :: rest =>
      i :: (if is_infering (seq_state_of c (Cxx.to_size_t i))
            then scanned c rest else [])
  end.

Definition touch_all (slots : list Z) (c : LlamaMicoContext) : LlamaMicoContext :=
  foldl (λ c i, touch (Cxx.to_size_t i) c) c slots.

Definition state_sections (k : nat) : list lock_event :=
  concat (replicate k state_section).

(** The context [set_seq_id cmpl_id] leaves behind. *)
Definition reserved (cmpl_id : Z) (c : LlamaMicoContext) : LlamaMicoContext :=
  let slots := seqZ 0 (n_seq_max c) in
  let c1 := touch_all (scanned c slots) c in
  if bool_decide (first_idle c slots ≠ -1)
  then set_cmpl_to_seq (<[cmpl_id := first_idle c slots]> (cmpl_to_seq c1)) c1
  else c1.

(** The log of a function that guards its body with
    [cmpl_to_seq_mutex], [inner] being the log of the body. *)
Definition mapping_section (inner : list lock_event) : list lock_event :=
  Acquire cmpl_to_seq_mutex :: inner ++ [Release cmpl_to_seq_mutex].


(** The key [erase_seq seq_id] erases. *)
Definition erase_target (seq_id : Z) (c : LlamaMicoContext) : Z :=
  erase_seq_scan (map_in_order (cmpl_to_seq c)) seq_id (Cxx.to_size_t (-1)).


(** Of the slots of [c], exactly those below [k] are inferring. *)
Definition busy_below (k : Z) (c : LlamaMicoContext) : Prop :=
  ∀ i, 0 ≤ i < n_seq_max c →
       is_infering (seq_state_of c i) = bool_decide (i < k).

(** [placeholder_tokens] occurs contiguously in [label_tokens] at
    index [i]. *)
Definition occurs_at (label_tokens placeholder_tokens : llama_tokens) (i : nat)
  : Prop :=
  take (length placeholder_tokens) (drop i label_tokens) = placeholder_tokens.

(** A renderer that ignores the message. *)
Definition blank_template (tmpl role content : string) : string := "<>".

Definition blank_runtime : llama_runtime :=
  {| common_init_from_params := λ _, {| has_model := true; has_context := true |};
     llama_model_chat_template := Some "blank"%string;
     common_tokenize := char_tokenize;
     common_chat_format_example := blank_template;
     mtmd_init_from_file := load_vision;
     llama_model_get_vocab_null := Returns;
     common_sampler_init_null := Returns;
     LlamaMemoryScheduler_null := Returns |}.

(** The tokens the constructor searches in and for. *)
Definition label_tokens_of (rt : llama_runtime) (params : common_params)
  : llama_tokens :=
  common_tokenize rt
    (common_chat_format_example rt (Params.chat_template params) "user" "*=*").

Definition placeholder_tokens_of (rt : llama_runtime) : llama_tokens :=
  common_tokenize rt "*=*".

(** ** Further contexts and runtimes *)

(** Every slot recorded in the mapping is one of the slots of [c]. *)
Definition slots_in_range (c : LlamaMicoContext) : Prop :=
  ∀ id s, cmpl_to_seq c !! id = Some s → 0 ≤ s < n_seq_max c.

(** Three slots of which slot 0 is inferring. *)
Definition first_busy_context : LlamaMicoContext :=
  with_is_infering 0 true (idle_context 3).

(** A runtime whose model failed to load. *)
Definition no_model_runtime : llama_runtime :=
  {| common_init_from_params := λ _, {| has_model := false; has_context := true |};
     llama_model_chat_template := Some "chatml"%string;
     common_tokenize := char_tokenize;
     common_chat_format_example := tag_template;
     mtmd_init_from_file := load_vision;
     llama_model_get_vocab_null := Returns;
     common_sampler_init_null := Returns;
     LlamaMemoryScheduler_null := Returns |}.

(** A runtime whose model failed to load and whose sampler
    initialisation faults on the null model. *)
Definition faulting_runtime : llama_runtime :=
  {| common_init_from_params := λ _, {| has_model := false; has_context := true |};
     llama_model_chat_template := Some "chatml"%string;
     common_tokenize := char_tokenize;
     common_chat_format_example := tag_template;
     mtmd_init_from_file := load_vision;
     llama_model_get_vocab_null := Returns;
     common_sampler_init_null := Aborts 139;
     LlamaMemoryScheduler_null := Returns |}.

(** A runtime whose model carries no chat template. *)
Definition no_template_runtime : llama_runtime :=
  {| common_init_from_params := λ _, {| has_model := true; has_context := true |};
     llama_model_chat_template := None;
     common_tokenize := char_tokenize;
     common_chat_format_example := tag_template;
     mtmd_init_from_file := load_vision;
     llama_model_get_vocab_null := Returns;
     common_sampler_init_null := Returns;
     LlamaMemoryScheduler_null := Returns |}.

Definition with_chat_template (tmpl : string) (params : common_params)
  : common_params :=
  {| Params.cpuparams_n_threads := Params.cpuparams_n_threads params;
     Params.n_batch := Params.n_batch params;
     Params.n_usage_context := Params.n_usage_context params;
     Params.n_seq_max := Params.n_seq_max params;
     Params.cache_seq := Params.cache_seq params;
     Params.chat_template := tmpl;
     Params.use_jinja := Params.use_jinja params;
     Params.mmproj_path := Params.mmproj_path params;
     Params.mmproj_use_gpu := Params.mmproj_use_gpu params;
     Params.verbosity := Params.verbosity params |}.

(** * Properties *)

Example toy_construction :
  crop_tokens_lable <$>
    (match LlamaMicoContext_new toy_runtime (toy_params "mmproj.gguf" 4 1) with
     | Ok c => Some c | _ => None end)
  = Some (char_tokenize "<user>").
Proof. vm_compute. reflexivity. Qed.

(** ** Reasoning about [op] *)

Ltac op_unfold :=
  unfold lock_guard, op_bind, op_ret, emit, read, update in *.

Lemma std_equal_eq (xs ys : llama_tokens) :
  length xs = length ys → std_equal xs ys = true ↔ xs = ys.
Proof.
  revert ys. induction xs as [|x xs IH]; intros [|y ys] Hlen;
    simpl in *; try discriminate; [done|].
  rewrite andb_true_iff, Z.eqb_eq, IH by lia.
  split; [intros [-> ->]; done | intros [= -> ->]; done].
Qed.

Lemma check_antiprompt_pure (t : thread) (generated_tokens : llama_tokens) :
  (check_antiprompt generated_tokens t).2 = t.
Proof.
  unfold check_antiprompt. op_unfold.
  destruct (_ || _); reflexivity.
Qed.

Lemma check_antiprompt_unfold (t : thread) (generated_tokens : llama_tokens) :
  (check_antiprompt generated_tokens t).1 =
    if bool_decide (antiprompt_tokens (self t) = [])
       || (length generated_tokens <? length (antiprompt_tokens (self t)))%nat
    then false
    else std_equal
           (drop (length generated_tokens - length (antiprompt_tokens (self t)))%nat
                 generated_tokens)
           (antiprompt_tokens (self t)).
Proof.
  unfold check_antiprompt. op_unfold.
  destruct (_ || _); reflexivity.
Qed.

(** C6. [check_antiprompt] answers false when no antiprompt is configured
    or when fewer tokens were generated than the antiprompt has; in every
    other case it answers true exactly when the last
    [length antiprompt_tokens] generated tokens are the antiprompt
    tokens. It changes nothing. *)
Theorem check_antiprompt_suffix (t : thread) (generated_tokens : llama_tokens) :
  let anti := antiprompt_tokens (self t) in
  let r := check_antiprompt generated_tokens t in
  r.2 = t ∧
  (anti = [] ∨ (length generated_tokens < length anti)%nat → r.1 = false) ∧
  (anti ≠ [] → (length anti ≤ length generated_tokens)%nat →
     r.1 = true ↔
     drop (length generated_tokens - length anti)%nat generated_tokens = anti).
Proof.
  intros anti r. subst r. split; [apply check_antiprompt_pure|].
  rewrite check_antiprompt_unfold. fold anti. split.
  - intros [Hnil | Hshort].
    + rewrite bool_decide_eq_true_2 by done. reflexivity.
    + apply Nat.ltb_lt in Hshort. rewrite Hshort, orb_true_r. reflexivity.
  - intros Hne Hlen.
    rewrite bool_decide_eq_false_2 by done.
    apply Nat.ltb_ge in Hlen as Hge. rewrite Hge. simpl.
    apply std_equal_eq. rewrite length_drop. lia.
Qed.

(** The stop string of the vicuna template, one token per character:
    a generation that ends in it stops, and no longer does once its
    last token is dropped. *)
Lemma check_antiprompt_suffix_witness :
  let t := on (with_antiprompt (char_tokenize "ASSISTANT:") (idle_context 2)) in
  (check_antiprompt (char_tokenize "Hello ASSISTANT:") t).1 = true ∧
  (check_antiprompt (char_tokenize "Hello ASSISTANT") t).1 = false ∧
  (check_antiprompt (char_tokenize "ASSISTANT: Hello") t).1 = false ∧
  (check_antiprompt (char_tokenize "ANT:") t).1 = false.
Proof.
  intros t.
  pose proof (check_antiprompt_suffix t (char_tokenize "Hello ASSISTANT:"))
    as (_ & _ & H1).
  pose proof (check_antiprompt_suffix t (char_tokenize "Hello ASSISTANT"))
    as (_ & _ & H2).
  pose proof (check_antiprompt_suffix t (char_tokenize "ASSISTANT: Hello"))
    as (_ & _ & H3).
  pose proof (check_antiprompt_suffix t (char_tokenize "ANT:"))
    as (_ & H4 & _).
  split; [apply H1; [discriminate | vm_compute; lia | reflexivity]|].
  split.
  { apply not_true_is_false. intros E.
    apply H2 in E; [discriminate E | discriminate | vm_compute; lia]. }
  split.
  { apply not_true_is_false. intros E.
    apply H3 in E; [discriminate E | discriminate | vm_compute; lia]. }
  apply H4. right. vm_compute. lia.
Defined.

(** ** The slot scan *)

Lemma get_seq_state_run (seq_id : Z) (t : thread) :
  get_seq_state seq_id t =
    (seq_id, {| self := touch seq_id (self t);
                events := events t ++ state_section |}).
Proof.
  unfold get_seq_state, process_seqs_subscript, touch, state_section.
  op_unfold. cbn. rewrite <- !app_assoc. reflexivity.
Qed.

Lemma seq_state_of_touch (k j : Z) (c : LlamaMicoContext) :
  seq_state_of (touch k c) j = seq_state_of c j.
Proof.
  unfold seq_state_of, touch, map_subscript. cbn.
  destruct (process_seqs c !! k) eqn:Hk; cbn; [done|].
  destruct (decide (k = j)) as [->|Hne].
  - rewrite lookup_insert_eq, Hk. reflexivity.
  - rewrite lookup_insert_ne by done. reflexivity.
Qed.

Lemma touch_keeps (k j : Z) (c : LlamaMicoContext) (st : LlamaSeqState) :
  process_seqs c !! j = Some st → process_seqs (touch k c) !! j = Some st.
Proof.
  intros Hj. unfold touch, map_subscript. cbn.
  destruct (process_seqs c !! k) eqn:Hk; cbn; [done|].
  rewrite lookup_insert_ne; [done | congruence].
Qed.

Lemma touch_fresh (k j : Z) (c : LlamaMicoContext) (st : LlamaSeqState) :
  process_seqs (touch k c) !! j = Some st →
  process_seqs c !! j = Some st ∨
  (process_seqs c !! j = None ∧ st = LlamaSeqState_init).
Proof.
  unfold touch, map_subscript. cbn.
  destruct (process_seqs c !! k) eqn:Hk; cbn; [auto|].
  destruct (decide (k = j)) as [->|Hne].
  - rewrite lookup_insert_eq. intros [= <-]. auto.
  - rewrite lookup_insert_ne by done. auto.
Qed.

Lemma touch_all_cons (i : Z) (slots : list Z) (c : LlamaMicoContext) :
  touch_all (i :: slots) c = touch_all slots (touch (Cxx.to_size_t i) c).
Proof. reflexivity. Qed.

Lemma seq_state_of_touch_all (slots : list Z) (j : Z) (c : LlamaMicoContext) :
  seq_state_of (touch_all slots c) j = seq_state_of c j.
Proof.
  revert c. induction slots as [|i slots IH]; intros c; [done|].
  rewrite touch_all_cons, IH. apply seq_state_of_touch.
Qed.

Lemma touch_all_keeps (slots : list Z) (j : Z) (c : LlamaMicoContext)
    (st : LlamaSeqState) :
  process_seqs c !! j = Some st →
  process_seqs (touch_all slots c) !! j = Some st.
Proof.
  revert c. induction slots as [|i slots IH]; intros c Hj; [done|].
  rewrite touch_all_cons. apply IH. by apply touch_keeps.
Qed.

Lemma touch_all_fresh (slots : list Z) (j : Z) (c : LlamaMicoContext)
    (st : LlamaSeqState) :
  process_seqs (touch_all slots c) !! j = Some st →
  process_seqs c !! j = Some st ∨
  (process_seqs c !! j = None ∧ st = LlamaSeqState_init).
Proof.
  revert c. induction slots as [|i slots IH]; intros c Hj; [auto|].
  rewrite touch_all_cons in Hj. apply IH in Hj as [Hj | [Hj ->]].
  - by apply touch_fresh in Hj.
  - right. split; [|done].
    destruct (process_seqs c !! j) eqn:Hc; [|done].
    by erewrite touch_keeps in Hj.
Qed.

Lemma touch_all_frame (slots : list Z) (c : LlamaMicoContext) :
  cmpl_to_seq (touch_all slots c) = cmpl_to_seq c ∧
  n_seq_max (touch_all slots c) = n_seq_max c ∧
  ctx_vision (touch_all slots c) = ctx_vision c ∧
  crop_tokens_lable (touch_all slots c) = crop_tokens_lable c ∧
  antiprompt_tokens (touch_all slots c) = antiprompt_tokens c ∧
  kv_cache_seq (touch_all slots c) = kv_cache_seq c ∧
  n_batch (touch_all slots c) = n_batch c ∧
  n_usage_context (touch_all slots c) = n_usage_context c ∧
  n_threads (touch_all slots c) = n_threads c.
Proof.
  revert c. induction slots as [|i slots IH]; intros c; [done|].
  rewrite touch_all_cons.
  destruct (IH (touch (Cxx.to_size_t i) c))
    as (-> & -> & -> & -> & -> & -> & -> & -> & ->).
  done.
Qed.

Lemma first_idle_touch (k : Z) (slots : list Z) (c : LlamaMicoContext) :
  first_idle (touch k c) slots = first_idle c slots.
Proof.
  induction slots as [|i slots IH]; [done|].
  cbn. rewrite seq_state_of_touch, IH. reflexivity.
Qed.

Lemma scanned_touch (k : Z) (slots : list Z) (c : LlamaMicoContext) :
  scanned (touch k c) slots = scanned c slots.
Proof.
  induction slots as [|i slots IH]; [done|].
  cbn. rewrite seq_state_of_touch, IH. reflexivity.
Qed.

Lemma set_seq_id_scan_run (slots : list Z) (t : thread) :
  set_seq_id_scan slots t =
    (first_idle (self t) slots,
     {| self := touch_all (scanned (self t) slots) (self t);
        events := events t ++ state_sections (length (scanned (self t) slots)) |}).
Proof.
  revert t. induction slots as [|i slots IH]; intros [c evs].
  - cbn. unfold op_ret, state_sections. cbn. rewrite app_nil_r. reflexivity.
  - cbn [set_seq_id_scan]. unfold op_bind at 1. rewrite get_seq_state_run.
    unfold op_bind, load_is_infering, read. cbn [self events fst snd].
    rewrite seq_state_of_touch. cbn [first_idle scanned].
    destruct (is_infering (seq_state_of c (Cxx.to_size_t i))) eqn:Hbusy; cbn [negb].
    + rewrite IH. cbn [self events].
      rewrite first_idle_touch, scanned_touch, touch_all_cons.
      f_equal. f_equal. unfold state_sections. cbn.
      rewrite <- !app_assoc. reflexivity.
    + unfold op_ret, state_sections. cbn. reflexivity.
Qed.

(** ** The member functions as state transformers *)

Lemma set_cmpl_to_seq_same (c : LlamaMicoContext) :
  set_cmpl_to_seq (cmpl_to_seq c) c = c.
Proof. by destruct c. Qed.

Lemma set_seq_id_run (cmpl_id : Z) (t : thread) :
  set_seq_id cmpl_id t =
    (first_idle (self t) (seqZ 0 (n_seq_max (self t))),
     {| self := reserved cmpl_id (self t);
        events := events t ++
          mapping_section
            (state_sections
               (length (scanned (self t) (seqZ 0 (n_seq_max (self t)))))) |}).
Proof.
  destruct t as [c evs]. unfold set_seq_id, lock_guard, reserved.
  unfold op_bind at 1. unfold emit at 1. cbn [self events].
  unfold op_bind at 1. unfold op_bind at 1. unfold read at 1. cbn [self events].
  unfold op_bind at 1. rewrite set_seq_id_scan_run. cbn [self events].
  unfold mapping_section.
  destruct (bool_decide _); op_unfold; cbn [self events];
    rewrite <- !app_assoc; reflexivity.
Qed.

Lemma get_seq_id_run (cmpl_id : Z) (t : thread) :
  get_seq_id cmpl_id t =
    (default (-1) (cmpl_to_seq (self t) !! cmpl_id),
     {| self := self t; events := events t ++ mapping_section [] |}).
Proof.
  destruct t as [c evs].
  unfold get_seq_id, cmpl_to_seq_subscript, map_count, map_subscript,
    mapping_section.
  op_unfold. cbn [self events].
  destruct (cmpl_to_seq c !! cmpl_id) eqn:Hid; cbn; rewrite ?Hid; cbn;
    rewrite ?set_cmpl_to_seq_same, <- ?app_assoc; reflexivity.
Qed.

Lemma size_ge_zero (z : Z) : Cxx.size_ge z 0 = true.
Proof.
  unfold Cxx.size_ge, Cxx.to_size_t, Cxx.size_modulus.
  apply Z.leb_le. rewrite Z.mod_0_l by lia.
  apply Z.mod_pos_bound. lia.
Qed.

Lemma erase_seq_run (seq_id : Z) (t : thread) :
  erase_seq seq_id t =
    (true,
     {| self := set_cmpl_to_seq
                  (delete (erase_target seq_id (self t)) (cmpl_to_seq (self t)))
                  (self t);
        events := events t ++ mapping_section [] |}).
Proof.
  destruct t as [c evs].
  unfold erase_seq, erase_target, mapping_section. op_unfold. cbn [self events].
  rewrite size_ge_zero. cbn. rewrite <- !app_assoc. reflexivity.
Qed.

(** *** The traversal of [erase_seq] *)

Global Instance key_le_total {V} : Total (@key_le V).
Proof. intros a b. unfold key_le. lia. Qed.

Global Instance key_le_trans {V} : Transitive (@key_le V).
Proof. intros a b c. unfold key_le. lia. Qed.

Lemma elem_of_map_in_order {V} (m : gmap Z V) (k : Z) (v : V) :
  (k, v) ∈ map_in_order m ↔ m !! k = Some v.
Proof.
  unfold map_in_order. rewrite merge_sort_Permutation.
  apply elem_of_map_to_list.
Qed.

Lemma map_in_order_sorted {V} (m : gmap Z V) :
  StronglySorted key_le (map_in_order m).
Proof. apply StronglySorted_merge_sort; apply _. Qed.

Lemma erase_seq_scan_none (entries : list (Z * Z)) (seq_id dflt : Z) :
  (∀ k, (k, seq_id) ∉ entries) →
  erase_seq_scan entries seq_id dflt = dflt.
Proof.
  induction entries as [|[k v] entries IH]; intros Hno; [done|].
  cbn. destruct (Z.eqb_spec v seq_id) as [->|Hne].
  - exfalso. apply (Hno k). left.
  - apply IH. intros k' Hin. apply (Hno k'). by right.
Qed.

Lemma erase_seq_scan_first (entries : list (Z * Z)) (seq_id dflt k0 : Z) :
  StronglySorted key_le entries →
  (k0, seq_id) ∈ entries →
  (erase_seq_scan entries seq_id dflt, seq_id) ∈ entries ∧
  ∀ k, (k, seq_id) ∈ entries → erase_seq_scan entries seq_id dflt ≤ k.
Proof.
  induction entries as [|[k v] entries IH]; intros Hsorted Hin.
  - by apply elem_of_nil in Hin.
  - apply StronglySorted_inv in Hsorted as [Hsorted Hhd].
    cbn. destruct (Z.eqb_spec v seq_id) as [->|Hne].
    + split; [left|]. intros k' [[= ->]|Hk']%elem_of_cons; [lia|].
      rewrite Forall_forall in Hhd. apply (Hhd _ Hk').
    + apply elem_of_cons in Hin as [[= -> ->]|Hin]; [done|].
      destruct (IH Hsorted Hin) as [Hfound Hleast].
      split; [by right|].
      intros k' [[= -> ->]|Hk']%elem_of_cons; [done|]. by apply Hleast.
Qed.

Lemma erase_target_unmapped (seq_id : Z) (c : LlamaMicoContext) :
  (∀ id, cmpl_to_seq c !! id ≠ Some seq_id) →
  erase_target seq_id c = Cxx.SIZE_MAX.
Proof.
  intros Hno. unfold erase_target. rewrite erase_seq_scan_none; [done|].
  intros k Hin. apply elem_of_map_in_order in Hin. by apply (Hno k).
Qed.

Lemma erase_target_mapped (seq_id id : Z) (c : LlamaMicoContext) :
  cmpl_to_seq c !! id = Some seq_id →
  cmpl_to_seq c !! erase_target seq_id c = Some seq_id ∧
  ∀ id', cmpl_to_seq c !! id' = Some seq_id → erase_target seq_id c ≤ id'.
Proof.
  intros Hid. unfold erase_target.
  destruct (erase_seq_scan_first (map_in_order (cmpl_to_seq c)) seq_id
              (Cxx.to_size_t (-1)) id) as [Hfound Hleast].
  - apply map_in_order_sorted.
  - by apply elem_of_map_in_order.
  - split; [by apply elem_of_map_in_order|].
    intros id' Hid'. apply Hleast. by apply elem_of_map_in_order.
Qed.

(** ** Release *)

(** For a slot some completion id maps to, [erase_seq] removes the entry
    of the lowest such id, nothing else, and answers true. *)
Lemma erase_seq_mapped (t : thread) (seq_id id : Z) :
  cmpl_to_seq (self t) !! id = Some seq_id →
  ∃ victim,
    cmpl_to_seq (self t) !! victim = Some seq_id ∧
    (∀ id', cmpl_to_seq (self t) !! id' = Some seq_id → victim ≤ id') ∧
    erase_seq seq_id t =
      (true, {| self := set_cmpl_to_seq (delete victim (cmpl_to_seq (self t)))
                                        (self t);
                events := events t ++ mapping_section [] |}).
Proof.
  intros Hid. exists (erase_target seq_id (self t)).
  destruct (erase_target_mapped seq_id id (self t) Hid) as [Hfound Hleast].
  repeat split; [done | done | apply erase_seq_run].
Qed.

(** C2. [erase_seq] answers true for every slot, also for one that no
    completion id maps to; in that case it erases the key [SIZE_MAX],
    the value the search variable [to_erase] starts with. *)
Theorem erase_seq_unmapped_reports_found (t : thread) (seq_id : Z) :
  (erase_seq seq_id t).1 = true ∧
  ((∀ id, cmpl_to_seq (self t) !! id ≠ Some seq_id) →
   cmpl_to_seq (self (erase_seq seq_id t).2) =
     delete Cxx.SIZE_MAX (cmpl_to_seq (self t))).
Proof.
  rewrite erase_seq_run. split; [done|].
  intros Hno. cbn. by rewrite erase_target_unmapped.
Qed.

(** Releasing slot 0 while nothing is mapped is reported as found, and
    releasing it while only slot 1 is mapped, under the completion id
    [SIZE_MAX], removes that entry. *)
Lemma erase_seq_unmapped_reports_found_witness :
  (erase_seq 0 (on (idle_context 2))).1 = true ∧
  cmpl_to_seq
    (self (erase_seq 0
             (on (with_mapping {[Cxx.SIZE_MAX := 1]} (idle_context 2)))).2)
  = ∅.
Proof.
  split.
  - apply (erase_seq_unmapped_reports_found (on (idle_context 2)) 0).
  - destruct (erase_seq_unmapped_reports_found
                (on (with_mapping {[Cxx.SIZE_MAX := 1]} (idle_context 2))) 0)
      as [_ H].
    rewrite H.
    + cbn. apply delete_singleton_eq.
    + intros id. cbn. rewrite lookup_singleton. case_decide; congruence.
Defined.

(** ** Lookup *)

Lemma cmpl_to_seq_reserved (cmpl_id : Z) (c : LlamaMicoContext) :
  cmpl_to_seq (reserved cmpl_id c) =
    if bool_decide (first_idle c (seqZ 0 (n_seq_max c)) ≠ -1)
    then <[cmpl_id := first_idle c (seqZ 0 (n_seq_max c))]> (cmpl_to_seq c)
    else cmpl_to_seq c.
Proof.
  unfold reserved.
  destruct (touch_all_frame (scanned c (seqZ 0 (n_seq_max c))) c) as [Hm _].
  destruct (bool_decide _); cbn; by rewrite Hm.
Qed.

Lemma perform_keeps_unmapped (c : call) (t : thread) (cmpl_id : Z) :
  c ≠ SetSeqId cmpl_id →
  cmpl_to_seq (self t) !! cmpl_id = None →
  cmpl_to_seq (self (perform c t).2) !! cmpl_id = None.
Proof.
  intros Hc Hnone. destruct c as [k | id | id | s]; unfold perform, op_bind.
  - rewrite get_seq_state_run. cbn.
    by destruct (process_seqs (self t) !! k).
  - rewrite set_seq_id_run. cbn. rewrite cmpl_to_seq_reserved.
    destruct (bool_decide _); [|done].
    rewrite lookup_insert_ne; [done | congruence].
  - rewrite get_seq_id_run. done.
  - rewrite erase_seq_run. cbn. rewrite lookup_delete_None. by right.
Qed.

Lemma perform_all_keeps_unmapped (cs : list call) (t : thread) (cmpl_id : Z) :
  SetSeqId cmpl_id ∉ cs →
  cmpl_to_seq (self t) !! cmpl_id = None →
  cmpl_to_seq (self (perform_all cs t).2) !! cmpl_id = None.
Proof.
  revert t. induction cs as [|c cs IH]; intros t Hcs Hnone; [done|].
  apply not_elem_of_cons in Hcs as [Hc Hcs].
  cbn. unfold op_bind.
  pose proof (perform_keeps_unmapped c t cmpl_id (not_eq_sym Hc) Hnone) as H1.
  destruct (perform c t) as [[] t1]. by apply IH.
Qed.

(** C7. [get_seq_id] right after a [set_seq_id] that handed out a slot
    answers that slot; it answers -1 for a completion id that has no
    entry, which is the case for an id that was never reserved since
    the mapping was empty and for the id whose entry [erase_seq] has
    just removed; and it leaves the context as it was. *)
Theorem get_seq_id_after_set_seq_id (t : thread) (cmpl_id : Z) :
  let r := set_seq_id cmpl_id t in
  (r.1 ≠ -1 → (get_seq_id cmpl_id r.2).1 = r.1) ∧
  (cmpl_to_seq (self t) !! cmpl_id = None → (get_seq_id cmpl_id t).1 = -1) ∧
  (∀ cs, cmpl_to_seq (self t) = ∅ → SetSeqId cmpl_id ∉ cs →
         (get_seq_id cmpl_id (perform_all cs t).2).1 = -1) ∧
  (∀ seq_id,
     cmpl_to_seq (self t) !! cmpl_id = Some seq_id →
     (∀ id', cmpl_to_seq (self t) !! id' = Some seq_id → cmpl_id ≤ id') →
     (get_seq_id cmpl_id (erase_seq seq_id t).2).1 = -1) ∧
  self (get_seq_id cmpl_id t).2 = self t.
Proof.
  intros r. subst r. repeat split.
  - rewrite set_seq_id_run. cbn [fst snd]. intros Hgot.
    rewrite get_seq_id_run. cbn. rewrite cmpl_to_seq_reserved.
    rewrite bool_decide_eq_true_2 by done. by rewrite lookup_insert_eq.
  - intros Hnone. rewrite get_seq_id_run. cbn. by rewrite Hnone.
  - intros cs Hempty Hcs. rewrite get_seq_id_run. cbn.
    rewrite perform_all_keeps_unmapped; [done | done |].
    rewrite Hempty. apply lookup_empty.
  - intros seq_id Hid Hleast. rewrite erase_seq_run, get_seq_id_run. cbn.
    destruct (erase_target_mapped seq_id cmpl_id (self t) Hid) as [Hv Hvl].
    assert (erase_target seq_id (self t) = cmpl_id) as ->.
    { apply Z.le_antisymm; [by apply Hvl | by apply Hleast]. }
    by rewrite lookup_delete_eq.
  - rewrite get_seq_id_run. done.
Qed.

(** Reserving for completion id 7 on an idle two-slot context hands out
    slot 0, which the lookup then reports; id 8 is unknown. *)
Lemma get_seq_id_after_set_seq_id_witness :
  let t := on (idle_context 2) in
  (set_seq_id 7 t).1 = 0 ∧
  (get_seq_id 7 (set_seq_id 7 t).2).1 = 0 ∧
  (get_seq_id 8 t).1 = -1 ∧
  (get_seq_id 8 (perform_all [SetSeqId 7; EraseSeq 0; GetSeqId 8] t).2).1 = -1 ∧
  (get_seq_id 7 (erase_seq 0 (set_seq_id 7 t).2).2).1 = -1.
Proof.
  intros t.
  assert ((set_seq_id 7 t).1 = 0) as H0 by (vm_compute; reflexivity).
  destruct (get_seq_id_after_set_seq_id t 7) as (H1 & _ & _ & _ & _).
  destruct (get_seq_id_after_set_seq_id t 8) as (_ & H2 & H3 & _ & _).
  destruct (get_seq_id_after_set_seq_id (set_seq_id 7 t).2 7)
    as (_ & _ & _ & H4 & _).
  split; [exact H0|]. split.
  { cbv zeta in H1. rewrite H1; [exact H0 | rewrite H0; lia]. }
  split; [apply H2; reflexivity|]. split.
  { apply H3; [reflexivity|].
    intros Hin. repeat (apply elem_of_cons in Hin as [Hin|Hin]; [discriminate|]).
    by apply elem_of_nil in Hin. }
  apply (H4 0).
  - rewrite set_seq_id_run. cbn [snd self]. rewrite cmpl_to_seq_reserved.
    vm_compute. reflexivity.
  - intros id'. rewrite set_seq_id_run. cbn [snd self].
    rewrite cmpl_to_seq_reserved.
    change (first_idle (self t) (seqZ 0 (n_seq_max (self t)))) with 0.
    rewrite bool_decide_eq_true_2 by lia.
    rewrite lookup_insert. case_decide; [lia|]. cbn. by rewrite lookup_empty.
Defined.

(** ** Reservation leaves the per-slot state alone *)

Lemma first_idle_is_idle (c : LlamaMicoContext) (slots : list Z) :
  first_idle c slots ≠ -1 →
  first_idle c slots ∈ slots ∧
  is_infering (seq_state_of c (Cxx.to_size_t (first_idle c slots))) = false.
Proof.
  induction slots as [|i slots IH]; cbn; [done|].
  destruct (is_infering (seq_state_of c (Cxx.to_size_t i))) eqn:Hbusy.
  - intros Hgot. destruct (IH Hgot) as [Hin Hidle]. split; [by right | done].
  - intros _. split; [left | done].
Qed.

Lemma seq_state_of_reserved (cmpl_id k : Z) (c : LlamaMicoContext) :
  seq_state_of (reserved cmpl_id c) k = seq_state_of c k.
Proof.
  unfold reserved. destruct (bool_decide _).
  - unfold seq_state_of at 1. cbn. apply seq_state_of_touch_all.
  - apply seq_state_of_touch_all.
Qed.

Lemma process_seqs_reserved (cmpl_id : Z) (c : LlamaMicoContext) :
  process_seqs (reserved cmpl_id c) =
    process_seqs (touch_all (scanned c (seqZ 0 (n_seq_max c))) c).
Proof. unfold reserved. by destruct (bool_decide _). Qed.

(** C8. [set_seq_id] leaves the state of every slot as it was: every
    record of [process_seqs] is kept with all its fields, a record it
    creates while scanning holds the initial values a first access
    would find anyway, the slot it hands out is still not inferring
    afterwards, and the other members of the context keep their values;
    only [cmpl_to_seq] receives the new entry. *)
Theorem set_seq_id_frame (t : thread) (cmpl_id : Z) :
  let r := set_seq_id cmpl_id t in
  let c := self t in
  let c' := self r.2 in
  (∀ k, seq_state_of c' k = seq_state_of c k) ∧
  (∀ k st, process_seqs c !! k = Some st → process_seqs c' !! k = Some st) ∧
  (∀ k st, process_seqs c' !! k = Some st →
           process_seqs c !! k = Some st ∨
           (process_seqs c !! k = None ∧ st = LlamaSeqState_init)) ∧
  (r.1 ≠ -1 →
   is_infering (seq_state_of c' (Cxx.to_size_t r.1)) = false ∧
   cmpl_to_seq c' = <[cmpl_id := r.1]> (cmpl_to_seq c)) ∧
  (r.1 = -1 → cmpl_to_seq c' = cmpl_to_seq c) ∧
  n_seq_max c' = n_seq_max c ∧ kv_cache_seq c' = kv_cache_seq c ∧
  ctx_vision c' = ctx_vision c ∧
  crop_tokens_lable c' = crop_tokens_lable c ∧
  antiprompt_tokens c' = antiprompt_tokens c ∧
  n_batch c' = n_batch c ∧ n_usage_context c' = n_usage_context c ∧
  n_threads c' = n_threads c.
Proof.
  intros r c c'. subst r c c'. rewrite set_seq_id_run. cbn [fst snd self].
  set (c := self t). set (slots := seqZ 0 (n_seq_max c)).
  destruct (touch_all_frame (scanned c slots) c)
    as (Hmap & Hn & Hv & Hcrop & Hanti & Hkv & Hb & Hu & Ht).
  split; [intros k; apply seq_state_of_reserved|].
  split.
  { intros k st Hk. rewrite process_seqs_reserved. by apply touch_all_keeps. }
  split.
  { intros k st Hk. rewrite process_seqs_reserved in Hk.
    by apply touch_all_fresh in Hk. }
  split.
  { intros Hgot. split.
    - rewrite seq_state_of_reserved. by apply first_idle_is_idle.
    - rewrite cmpl_to_seq_reserved. by rewrite bool_decide_eq_true_2. }
  split.
  { intros Hnone. rewrite cmpl_to_seq_reserved.
    rewrite bool_decide_eq_false_2; [done|]. fold slots.
    intros Hgot. by apply Hgot. }
  unfold reserved. fold slots.
  destruct (bool_decide _); cbn;
    by rewrite ?Hn, ?Hv, ?Hcrop, ?Hanti, ?Hkv, ?Hb, ?Hu, ?Ht.
Qed.

(** On an idle two-slot context the reservation for completion id 7
    hands out slot 0 and slot 0 is not inferring afterwards. *)
Lemma set_seq_id_frame_witness :
  let t := on (idle_context 2) in
  (set_seq_id 7 t).1 = 0 ∧
  is_infering (seq_state_of (self (set_seq_id 7 t).2) 0) = false ∧
  cmpl_to_seq (self (set_seq_id 7 t).2) = {[7 := 0]}.
Proof.
  intros t.
  assert ((set_seq_id 7 t).1 = 0) as H0 by (vm_compute; reflexivity).
  destruct (set_seq_id_frame t 7) as (_ & _ & _ & H & _).
  cbv zeta in H. rewrite H0 in H.
  destruct H as [Hidle Hmap]; [lia|].
  split; [exact H0|]. split; [exact Hidle|].
  rewrite Hmap. reflexivity.
Defined.

(** ** Mutexes *)













(** ** Reservation *)

Lemma to_size_t_small (i : Z) : 0 ≤ i < 2 ^ 31 → Cxx.to_size_t i = i.
Proof.
  intros Hi. unfold Cxx.to_size_t, Cxx.size_modulus.
  apply Z.mod_small. lia.
Qed.

Lemma to_size_t_wide (i : Z) : 0 ≤ i < 2 ^ 64 → Cxx.to_size_t i = i.
Proof.
  intros Hi. unfold Cxx.to_size_t, Cxx.size_modulus.
  apply Z.mod_small. lia.
Qed.

Lemma first_idle_seqZ (c : LlamaMicoContext) (len : nat) (a k : Z) :
  0 ≤ a ≤ k → a + Z.of_nat len ≤ 2 ^ 31 →
  (∀ i, a ≤ i < a + Z.of_nat len →
        is_infering (seq_state_of c i) = bool_decide (i < k)) →
  first_idle c (seqZ a (Z.of_nat len)) =
    if bool_decide (k < a + Z.of_nat len) then k else -1.
Proof.
  revert a. induction len as [|len IH]; intros a Hak Hmax Hbusy.
  - cbn. rewrite bool_decide_eq_false_2 by lia. reflexivity.
  - rewrite seqZ_cons by lia. cbn [first_idle].
    rewrite to_size_t_small by lia. rewrite Hbusy by lia.
    replace (Z.pred (Z.of_nat (S len))) with (Z.of_nat len) by lia.
    destruct (decide (a < k)) as [Hlt|Hge].
    + rewrite bool_decide_eq_true_2 by done.
      rewrite IH; [|lia|lia|intros i Hi; apply Hbusy; lia].
      repeat case_bool_decide; lia.
    + rewrite bool_decide_eq_false_2 by done.
      rewrite bool_decide_eq_true_2 by lia. lia.
Qed.

Lemma first_idle_busy_below (c : LlamaMicoContext) (k : Z) :
  Cxx.is_int32 (n_seq_max c) → 0 ≤ k → busy_below k c →
  first_idle c (seqZ 0 (n_seq_max c)) =
    if bool_decide (k < n_seq_max c) then k else -1.
Proof.
  intros [_ Hmax] Hk Hbusy.
  destruct (decide (0 ≤ n_seq_max c)) as [Hn|Hn].
  - rewrite <- (Z2Nat.id (n_seq_max c)) at 1 by done.
    rewrite first_idle_seqZ with (k := k); [| lia | lia |].
    + repeat case_bool_decide; lia.
    + intros i Hi. apply Hbusy. lia.
  - rewrite seqZ_nil by lia. cbn.
    rewrite bool_decide_eq_false_2 by lia. reflexivity.
Qed.

(** When every slot is inferring, [set_seq_id] answers -1 and leaves
    the mapping as it was. *)
Lemma set_seq_id_all_busy (t : thread) (cmpl_id : Z) :
  Cxx.is_int32 (n_seq_max (self t)) →
  (∀ i, 0 ≤ i < n_seq_max (self t) →
        is_infering (seq_state_of (self t) i) = true) →
  (set_seq_id cmpl_id t).1 = -1 ∧
  cmpl_to_seq (self (set_seq_id cmpl_id t).2) = cmpl_to_seq (self t).
Proof.
  intros Hn Hbusy. rewrite set_seq_id_run. cbn [fst snd self].
  assert (first_idle (self t) (seqZ 0 (n_seq_max (self t))) = -1) as Hnone.
  { rewrite first_idle_busy_below with (k := Z.max 0 (n_seq_max (self t)));
      [| done | lia |].
    - rewrite bool_decide_eq_false_2 by lia. reflexivity.
    - intros i Hi. rewrite Hbusy by done.
      rewrite bool_decide_eq_true_2 by lia. reflexivity. }
  split; [done|]. rewrite cmpl_to_seq_reserved, Hnone. reflexivity.
Qed.

Lemma seq_state_of_with_is_infering (ref j : Z) (b : bool) (c : LlamaMicoContext) :
  is_infering (seq_state_of (with_is_infering ref b c) j) =
    if bool_decide (j = ref) then b else is_infering (seq_state_of c j).
Proof.
  unfold with_is_infering, seq_state_of at 1. cbn.
  case_bool_decide as Hj.
  - subst j. by rewrite lookup_insert_eq.
  - by rewrite lookup_insert_ne.
Qed.

Lemma begin_inference_run (seq_id : Z) (t : thread) :
  begin_inference seq_id t =
    (tt, {| self := with_is_infering (Cxx.to_size_t seq_id) true
                      (touch (Cxx.to_size_t seq_id) (self t));
            events := events t ++ state_section |}).
Proof.
  unfold begin_inference. unfold op_bind. rewrite get_seq_state_run.
  reflexivity.
Qed.

Lemma admit_request_run (cmpl_id k : Z) (t : thread) :
  Cxx.is_int32 (n_seq_max (self t)) →
  0 ≤ k < n_seq_max (self t) →
  busy_below k (self t) →
  ∃ t', admit_request cmpl_id t = (k, t') ∧
        n_seq_max (self t') = n_seq_max (self t) ∧
        busy_below (k + 1) (self t') ∧
        cmpl_to_seq (self t') = <[cmpl_id := k]> (cmpl_to_seq (self t)).
Proof.
  intros Hn Hk Hbusy. unfold admit_request. unfold op_bind at 1.
  assert (0 ≤ k) as Hk0 by lia.
  rewrite set_seq_id_run.
  rewrite (first_idle_busy_below _ k Hn Hk0 Hbusy).
  rewrite (bool_decide_eq_true_2 (k < n_seq_max (self t))) by lia.
  rewrite (bool_decide_eq_true_2 (k ≠ -1)) by lia.
  unfold op_bind. rewrite begin_inference_run. cbn [self events].
  eexists. split; [reflexivity|]. cbn [self].
  rewrite to_size_t_small by (destruct Hn; lia).
  assert (n_seq_max (reserved cmpl_id (self t)) = n_seq_max (self t)) as Hnr.
  { unfold reserved.
    destruct (touch_all_frame
                (scanned (self t) (seqZ 0 (n_seq_max (self t)))) (self t))
      as (_ & Hm & _).
    by destruct (bool_decide _). }
  split; [exact Hnr|]. split.
  - intros i Hi. cbn in Hi. rewrite Hnr in Hi.
    rewrite seq_state_of_with_is_infering, seq_state_of_touch,
      seq_state_of_reserved, Hbusy by done.
    case_bool_decide; [subst i; by rewrite bool_decide_eq_true_2 by lia|].
    apply bool_decide_ext. lia.
  - cbn. destruct (process_seqs (reserved cmpl_id (self t)) !! k); cbn;
      rewrite cmpl_to_seq_reserved, (first_idle_busy_below _ k Hn Hk0 Hbusy);
      rewrite (bool_decide_eq_true_2 (k < n_seq_max (self t))) by lia;
      by rewrite bool_decide_eq_true_2 by lia.
Qed.

Lemma admit_requests_run (cmpl_ids : list Z) (k : Z) (t : thread) :
  Cxx.is_int32 (n_seq_max (self t)) →
  0 ≤ k → k + Z.of_nat (length cmpl_ids) ≤ n_seq_max (self t) →
  busy_below k (self t) →
  NoDup cmpl_ids →
  ∃ t', admit_requests cmpl_ids t = (seqZ k (Z.of_nat (length cmpl_ids)), t') ∧
        n_seq_max (self t') = n_seq_max (self t) ∧
        busy_below (k + Z.of_nat (length cmpl_ids)) (self t') ∧
        (∀ (j : nat) id, cmpl_ids !! j = Some id →
                 cmpl_to_seq (self t') !! id = Some (k + Z.of_nat j)) ∧
        (∀ id, id ∉ cmpl_ids →
               cmpl_to_seq (self t') !! id = cmpl_to_seq (self t) !! id).
Proof.
  revert k t. induction cmpl_ids as [|id ids IH]; intros k t Hn Hk Hlen Hbusy Hnd.
  - exists t. cbn. rewrite Z.add_0_r. repeat split; try done.
  - apply NoDup_cons in Hnd as [Hid Hnd]. cbn [length] in Hlen.
    destruct (admit_request_run id k t Hn ltac:(lia) Hbusy)
      as (t1 & Hrun1 & Hn1 & Hbusy1 & Hmap1).
    destruct (IH (k + 1) t1) as (t2 & Hrun2 & Hn2 & Hbusy2 & Hin2 & Hout2);
      [by rewrite Hn1 | lia | rewrite Hn1; lia | done | done |].
    exists t2. cbn [admit_requests]. unfold op_bind. rewrite Hrun1, Hrun2.
    unfold op_ret. split.
    { rewrite (seqZ_cons k) by (cbn [length]; lia). do 3 f_equal.
      cbn [length]. lia. }
    split; [by rewrite Hn2, Hn1|]. split.
    { replace (k + Z.of_nat (length (id :: ids)))
        with (k + 1 + Z.of_nat (length ids)) by (cbn [length]; lia). done. }
    split.
    + intros [|j] id' Hj; cbn in Hj.
      * injection Hj as <-. rewrite Hout2 by done.
        rewrite Hmap1, lookup_insert_eq. f_equal. lia.
      * rewrite (Hin2 j id' Hj). f_equal. lia.
    + intros id' Hnotin. apply not_elem_of_cons in Hnotin as [Hne Hnotin].
      rewrite Hout2 by done. rewrite Hmap1. by rewrite lookup_insert_ne.
Qed.

(** C1. When every request starts inferring on the slot it was given
    before the next reservation is made, reservations for distinct
    completion ids on an idle context with an empty mapping, at most
    [n_seq_max] of them, hand out the slots 0, 1, 2, ... in this order:
    distinct slots in range, every id mapped to its slot and no slot
    mapped to by two ids; once [n_seq_max] requests are admitted the
    next reservation answers -1 and leaves the mapping as it is, as does
    every reservation made while all slots are inferring. *)
Theorem admitted_requests_get_distinct_slots (t : thread) (cmpl_ids : list Z) :
  Cxx.is_int32 (n_seq_max (self t)) →
  (∀ i, 0 ≤ i < n_seq_max (self t) →
        is_infering (seq_state_of (self t) i) = false) →
  cmpl_to_seq (self t) = ∅ →
  NoDup cmpl_ids →
  Z.of_nat (length cmpl_ids) ≤ n_seq_max (self t) →
  let r := admit_requests cmpl_ids t in
  let m := cmpl_to_seq (self r.2) in
  r.1 = seqZ 0 (Z.of_nat (length cmpl_ids)) ∧
  NoDup r.1 ∧
  Forall (λ s, 0 ≤ s < n_seq_max (self t)) r.1 ∧
  (∀ (j : nat) id, cmpl_ids !! j = Some id → m !! id = Some (Z.of_nat j)) ∧
  (∀ id1 id2 s, m !! id1 = Some s → m !! id2 = Some s → id1 = id2) ∧
  (Z.of_nat (length cmpl_ids) = n_seq_max (self t) →
   ∀ id, (set_seq_id id r.2).1 = -1 ∧
         cmpl_to_seq (self (set_seq_id id r.2).2) = m) ∧
  (∀ t2 id,
     Cxx.is_int32 (n_seq_max (self t2)) →
     (∀ i, 0 ≤ i < n_seq_max (self t2) →
           is_infering (seq_state_of (self t2) i) = true) →
     (set_seq_id id t2).1 = -1 ∧
     cmpl_to_seq (self (set_seq_id id t2).2) = cmpl_to_seq (self t2)).
Proof.
  intros Hn Hidle Hempty Hnd Hlen r m. subst r m.
  destruct (admit_requests_run cmpl_ids 0 t Hn) as
    (t' & Hrun & Hn' & Hbusy' & Hin & Hout); [lia | lia | | done |].
  { intros i Hi. rewrite Hidle by done.
    rewrite bool_decide_eq_false_2 by lia. reflexivity. }
  rewrite Hrun. cbn [fst snd].
  split; [done|]. split; [apply NoDup_seqZ|]. split.
  { apply Forall_seqZ. intros s Hs. lia. }
  assert (∀ id s, cmpl_to_seq (self t') !! id = Some s →
                  ∃ j : nat, cmpl_ids !! j = Some id ∧ s = Z.of_nat j) as Hinv.
  { intros id s Hs. destruct (decide (id ∈ cmpl_ids)) as [Hid|Hid].
    - apply list_elem_of_lookup in Hid as [j Hj]. exists j. split; [done|].
      rewrite (Hin j id Hj) in Hs. injection Hs as <-. lia.
    - rewrite Hout, Hempty, lookup_empty in Hs by done. discriminate. }
  split.
  { intros j id Hj. rewrite (Hin j id Hj). f_equal. }
  split.
  { intros id1 id2 s H1 H2.
    apply Hinv in H1 as (j1 & Hj1 & ->). apply Hinv in H2 as (j2 & Hj2 & Hj).
    apply Nat2Z.inj in Hj. subst j2. congruence. }
  split.
  { intros Hfull id. apply set_seq_id_all_busy; [by rewrite Hn'|].
    intros i Hi. rewrite Hbusy' by done.
    rewrite bool_decide_eq_true_2; [done|]. rewrite Hn' in Hi. lia. }
  intros t2 id. apply set_seq_id_all_busy.
Qed.

(** Two requests on an idle two-slot context get the slots 0 and 1, and
    a third reservation is declined. *)
Lemma admitted_requests_get_distinct_slots_witness :
  let r := admit_requests [10; 20] (on (idle_context 2)) in
  r.1 = [0; 1] ∧
  cmpl_to_seq (self r.2) !! 10 = Some 0 ∧
  cmpl_to_seq (self r.2) !! 20 = Some 1 ∧
  (set_seq_id 30 r.2).1 = -1.
Proof.
  intros r. subst r.
  destruct (admitted_requests_get_distinct_slots (on (idle_context 2)) [10; 20])
    as (Hslots & _ & _ & Hmap & _ & Hfull & _).
  - unfold Cxx.is_int32. cbn. lia.
  - intros i Hi. reflexivity.
  - reflexivity.
  - apply (bool_decide_unpack _). vm_compute. exact I.
  - vm_compute. discriminate.
  - cbv zeta in *. split; [exact Hslots|].
    split; [apply (Hmap 0%nat 10); reflexivity|].
    split; [apply (Hmap 1%nat 20); reflexivity|].
    apply Hfull. reflexivity.
Defined.

(** The claim of C1 as it is written fails: two reservations made back
    to back on an idle two-slot context both hand out slot 0, which is
    then mapped to by both completion ids. *)
Lemma reserve_all_same_slot :
  let r := reserve_all [10; 20] (on (idle_context 2)) in
  r.1 = [0; 0] ∧ ¬ NoDup r.1 ∧
  cmpl_to_seq (self r.2) !! 10 = Some 0 ∧
  cmpl_to_seq (self r.2) !! 20 = Some 0.
Proof.
  assert ((reserve_all [10; 20] (on (idle_context 2))).1 = [0; 0]) as Hslots
    by (vm_compute; reflexivity).
  cbv zeta. rewrite Hslots. split; [done|]. split.
  - intros Hnd. apply NoDup_cons in Hnd as [Hnotin _].
    apply Hnotin. left.
  - vm_compute. split; reflexivity.
Qed.

(** ** The crop boundary *)

Lemma size_add_small (a b : Z) :
  0 ≤ a → 0 ≤ b → a + b < 2 ^ 64 → Cxx.size_add a b = a + b.
Proof.
  intros Ha Hb Hab. unfold Cxx.size_add, Cxx.to_size_t, Cxx.size_modulus.
  apply Z.mod_small. lia.
Qed.

Lemma crop_match_at_in_bounds (label_tokens rest : llama_tokens) (i j : Z) :
  0 ≤ i → 0 ≤ j →
  i + j + Z.of_nat (length rest) ≤ Z.of_nat (length label_tokens) →
  Z.of_nat (length label_tokens) < 2 ^ 64 →
  crop_match_at label_tokens i j rest =
    Ok (bool_decide
          (take (length rest) (drop (Z.to_nat (i + j)) label_tokens) = rest)).
Proof.
  revert j. induction rest as [|p rest IH]; intros j Hi Hj Hfit Hsize.
  - cbn. reflexivity.
  - cbn [crop_match_at length] in *. unfold vector_at.
    rewrite size_add_small by lia.
    destruct (lookup_lt_is_Some_2 label_tokens (Z.to_nat (i + j))) as [x Hx];
      [lia|].
    rewrite Hx. rewrite (drop_S _ x _ Hx). cbn [take].
    destruct (Z.eqb_spec x p) as [->|Hne]; cbn [negb].
    + rewrite size_add_small by lia. rewrite IH by lia.
      replace (Z.to_nat (i + (j + 1))) with (S (Z.to_nat (i + j))) by lia.
      f_equal. apply bool_decide_ext. split; [by intros -> | by intros [= ->]].
    + rewrite bool_decide_eq_false_2; [done|]. by intros [= ->].
Qed.

(** When the placeholder does not fit any more, the inner loop either
    meets a token that differs or reads past the end of [label_tokens]. *)
Lemma crop_match_at_overrun (label_tokens rest : llama_tokens) (i j : Z) :
  0 ≤ i → 0 ≤ j →
  i + j ≤ Z.of_nat (length label_tokens) →
  Z.of_nat (length label_tokens) < i + j + Z.of_nat (length rest) →
  Z.of_nat (length label_tokens) < 2 ^ 64 →
  crop_match_at label_tokens i j rest = Ok false ∨
  ∃ k, crop_match_at label_tokens i j rest = OutOfBounds k ∧
       Z.of_nat (length label_tokens) ≤ k.
Proof.
  revert j. induction rest as [|p rest IH]; intros j Hi Hj Hin Hover Hsize.
  - cbn in Hover. lia.
  - cbn [crop_match_at length] in *. unfold vector_at.
    destruct (decide (i + j = Z.of_nat (length label_tokens))) as [Hend|Hnot].
    + right. exists (i + j).
      rewrite size_add_small by lia.
      rewrite (lookup_ge_None_2 label_tokens (Z.to_nat (i + j))) by lia.
      split; [done | lia].
    + rewrite size_add_small by lia.
      destruct (lookup_lt_is_Some_2 label_tokens (Z.to_nat (i + j))) as [x Hx];
        [lia|].
      rewrite Hx. destruct (Z.eqb_spec x p) as [->|Hne]; cbn [negb]; [|by left].
      rewrite size_add_small by lia.
      apply IH; lia.
Qed.

Lemma occurs_at_too_far (label_tokens placeholder_tokens : llama_tokens) (i : nat) :
  (0 < length placeholder_tokens)%nat →
  (length label_tokens < i + length placeholder_tokens)%nat →
  ¬ occurs_at label_tokens placeholder_tokens i.
Proof.
  intros Hpos Hfar Hocc. unfold occurs_at in Hocc.
  apply (f_equal length) in Hocc.
  rewrite length_take, length_drop in Hocc. lia.
Qed.

(** The outer loop while the placeholder is not longer than the label:
    it stops at the first index where the placeholder occurs, or at the
    end when there is none. *)
Lemma crop_search_fits (fuel : nat) (label_tokens placeholder_tokens : llama_tokens)
    (i : nat) :
  let L := length label_tokens in
  let P := length placeholder_tokens in
  (P ≤ L)%nat → Z.of_nat L < 2 ^ 64 →
  (i ≤ L - P + 1)%nat → (i ≤ L)%nat → (L - P + 1 - i < fuel)%nat →
  (∀ j, (j < i)%nat → ¬ occurs_at label_tokens placeholder_tokens j) →
  (∃ i0, occurs_at label_tokens placeholder_tokens i0 ∧
         (∀ j, (j < i0)%nat → ¬ occurs_at label_tokens placeholder_tokens j) ∧
         crop_search fuel label_tokens placeholder_tokens
           (Z.of_nat L - Z.of_nat P) (Z.of_nat i)
         = Ok (take i0 label_tokens)) ∨
  ((∀ j, ¬ occurs_at label_tokens placeholder_tokens j) ∧
   crop_search fuel label_tokens placeholder_tokens
     (Z.of_nat L - Z.of_nat P) (Z.of_nat i)
   = Ok []).
Proof.
  intros L P HPL Hsize. revert i.
  induction fuel as [|fuel IH]; intros i Hi HiL Hfuel Hbefore; [lia|].
  cbn [crop_search]. unfold Cxx.size_le.
  rewrite !to_size_t_wide by lia.
  destruct (Z.leb_spec (Z.of_nat i) (Z.of_nat L - Z.of_nat P)) as [Hle|Hgt].
  - rewrite crop_match_at_in_bounds by (fold L P; lia).
    rewrite Z.add_0_r, Nat2Z.id. fold P.
    case_bool_decide as Hocc.
    + left. exists i. split; [exact Hocc | split; [exact Hbefore | reflexivity]].
    + destruct (decide (P = 0%nat)) as [HP0|HP0].
      { exfalso. apply Hocc. subst P.
        destruct placeholder_tokens; [|discriminate]. reflexivity. }
      rewrite size_add_small by lia.
      replace (Z.of_nat i + 1) with (Z.of_nat (S i)) by lia.
      apply IH; [lia | lia | lia |].
      intros j Hj. destruct (decide (j = i)) as [->|Hne]; [done|].
      apply Hbefore. lia.
  - right. split; [|done].
    intros j. destruct (decide (j < i)%nat) as [Hj|Hj]; [by apply Hbefore|].
    destruct (decide (P = 0%nat)) as [HP0|HP0].
    + exfalso. apply (Hbefore 0%nat); [lia|]. subst P.
      destruct placeholder_tokens; [|discriminate]. reflexivity.
    + apply occurs_at_too_far; fold L P; lia.
Qed.

Lemma to_size_t_wide_sub (label_tokens placeholder_tokens : llama_tokens) :
  (length placeholder_tokens ≤ length label_tokens)%nat →
  Z.of_nat (length label_tokens) < 2 ^ 64 →
  Cxx.size_sub (Z.of_nat (length label_tokens))
               (Z.of_nat (length placeholder_tokens))
  = Z.of_nat (length label_tokens) - Z.of_nat (length placeholder_tokens).
Proof. intros Hfit HL. unfold Cxx.size_sub. apply to_size_t_wide. lia. Qed.

Lemma crop_match_at_end (label_tokens rest : llama_tokens) (i j : Z) :
  0 ≤ i → 0 ≤ j → i + j = Z.of_nat (length label_tokens) →
  i + j < 2 ^ 64 → rest ≠ [] →
  crop_match_at label_tokens i j rest = OutOfBounds (i + j).
Proof.
  intros Hi Hj Hend Hsize Hne. destruct rest as [|p rest]; [done|].
  cbn [crop_match_at]. unfold vector_at. rewrite size_add_small by lia.
  by rewrite (lookup_ge_None_2 label_tokens (Z.to_nat (i + j))) by lia.
Qed.

Lemma size_sub_wraps (a b : Z) :
  0 ≤ a < b → b < 2 ^ 64 → Cxx.size_sub a b = 2 ^ 64 + a - b.
Proof.
  intros Hab Hb. unfold Cxx.size_sub, Cxx.to_size_t, Cxx.size_modulus.
  symmetry. apply Z.mod_unique with (q := -1); lia.
Qed.

(** The outer loop while the placeholder is longer than the label: the
    wrapped bound lets every index up to the size of [label_tokens]
    through, and the inner loop reads past the end at the latest there. *)
Lemma crop_search_overrun (fuel : nat) (label_tokens placeholder_tokens : llama_tokens)
    (i : nat) :
  let L := length label_tokens in
  let P := length placeholder_tokens in
  (L < P)%nat → Z.of_nat P < 2 ^ 64 →
  (i ≤ L)%nat → (L - i < fuel)%nat →
  ∃ k, crop_search fuel label_tokens placeholder_tokens
         (Cxx.size_sub (Z.of_nat L) (Z.of_nat P)) (Z.of_nat i)
       = OutOfBounds k ∧
       Z.of_nat L ≤ k.
Proof.
  intros L P HLP Hsize. revert i.
  induction fuel as [|fuel IH]; intros i Hi Hfuel; [lia|].
  cbn [crop_search]. unfold Cxx.size_le.
  rewrite size_sub_wraps by lia.
  rewrite !to_size_t_wide by lia.
  rewrite (proj2 (Z.leb_le _ _)) by lia.
  destruct (decide (i = L)) as [->|HiL].
  - rewrite crop_match_at_end; [| lia | lia | fold L; lia | lia |].
    + exists (Z.of_nat L + 0). split; [done | lia].
    + intros ->. cbn in P. lia.
  - destruct (crop_match_at_overrun label_tokens placeholder_tokens
                (Z.of_nat i) 0) as [Hmiss | (k & Hk & Hkl)];
      [lia | lia | fold L; lia | fold L P; lia | fold L; lia | |].
    + rewrite Hmiss. rewrite size_add_small by lia.
      replace (Z.of_nat i + 1) with (Z.of_nat (S i)) by lia.
      rewrite <- (size_sub_wraps (Z.of_nat L) (Z.of_nat P)) by lia.
      apply IH; lia.
    + rewrite Hk. by exists k.
Qed.

Lemma crop_search_more_fuel (fuel : nat)
    (label_tokens placeholder_tokens : llama_tokens) (bound i : Z)
    (r : outcome llama_tokens) :
  crop_search fuel label_tokens placeholder_tokens bound i = r →
  r ≠ OutOfFuel →
  crop_search (S fuel) label_tokens placeholder_tokens bound i = r.
Proof.
  revert i. induction fuel as [|fuel IH]; intros i Hrun Hr.
  - cbn in Hrun. congruence.
  - remember (S fuel) as fuel1 eqn:Hf. cbn [crop_search].
    rewrite Hf in Hrun. cbn [crop_search] in Hrun.
    destruct (Cxx.size_le i bound); [|done].
    destruct (crop_match_at label_tokens i 0 placeholder_tokens)
      as [[|]| | |]; try done.
    by apply IH.
Qed.

(** The fuel [crop_boundary] gives to the outer loop is enough. *)
Lemma crop_boundary_fuel (label_tokens placeholder_tokens : llama_tokens) :
  Z.of_nat (length label_tokens) < 2 ^ 64 →
  Z.of_nat (length placeholder_tokens) < 2 ^ 64 →
  crop_boundary label_tokens placeholder_tokens ≠ OutOfFuel.
Proof.
  intros HL HP. unfold crop_boundary.
  destruct (decide (length placeholder_tokens ≤ length label_tokens)%nat)
    as [Hfit|Hover].
  - rewrite (to_size_t_wide_sub _ _ Hfit HL).
    pose proof (crop_search_fits (S (S (length label_tokens))) label_tokens
                  placeholder_tokens 0 Hfit HL) as Hrun.
    change (Z.of_nat 0) with 0 in Hrun.
    destruct Hrun as [(i0 & _ & _ & ->) | [_ ->]]; try done; try lia.
  - pose proof (crop_search_overrun (S (S (length label_tokens))) label_tokens
                  placeholder_tokens 0) as Hrun.
    change (Z.of_nat 0) with 0 in Hrun.
    destruct Hrun as (k & -> & _); try done; lia.
Qed.

(** X13. When the label is a prefix followed by the placeholder, and the
    placeholder does not occur earlier, the boundary is that prefix:
    this is the case of a tokenizer that splits the rendered user turn
    at the placeholder. *)
Lemma crop_boundary_splits (pre placeholder_tokens post : llama_tokens) :
  Z.of_nat (length (pre ++ placeholder_tokens ++ post)) < 2 ^ 64 →
  (∀ j, (j < length pre)%nat →
        ¬ occurs_at (pre ++ placeholder_tokens ++ post) placeholder_tokens j) →
  crop_boundary (pre ++ placeholder_tokens ++ post) placeholder_tokens = Ok pre.
Proof.
  intros HL Hearlier.
  set (label_tokens := pre ++ placeholder_tokens ++ post) in *.
  assert (length placeholder_tokens ≤ length label_tokens)%nat as Hfit.
  { unfold label_tokens. rewrite !length_app. lia. }
  assert (occurs_at label_tokens placeholder_tokens (length pre)) as Hhere.
  { unfold occurs_at, label_tokens.
    rewrite drop_app_length. apply take_app_length. }
  unfold crop_boundary. rewrite (to_size_t_wide_sub _ _ Hfit HL).
  pose proof (crop_search_fits (S (S (length label_tokens))) label_tokens
                placeholder_tokens 0 Hfit HL) as Hrun.
  change (Z.of_nat 0) with 0 in Hrun.
  destruct Hrun as [(i0 & Hocc & Hfirst & ->) | [Hnone _]];
    try lia; try (intros j Hj; lia).
  - assert (i0 = length pre) as ->.
    { destruct (Nat.lt_trichotomy i0 (length pre)) as [Hlt | [Heq | Hgt]].
      - by apply Hearlier in Hlt.
      - done.
      - by apply Hfirst in Hgt. }
    unfold label_tokens. by rewrite take_app_length.
  - by apply Hnone in Hhere.
Qed.

(** C5. For token vectors of admissible size: when the placeholder is
    not longer than the label, [crop_boundary] is the part of the label
    before the first index at which the placeholder occurs, and is empty
    when it occurs nowhere; when the placeholder is longer than the
    label it occurs nowhere, yet the result is not the empty boundary. *)
Theorem crop_boundary_first_occurrence
    (label_tokens placeholder_tokens : llama_tokens) :
  Z.of_nat (length label_tokens) < 2 ^ 64 →
  Z.of_nat (length placeholder_tokens) < 2 ^ 64 →
  ((length placeholder_tokens ≤ length label_tokens)%nat →
   (∃ i0, occurs_at label_tokens placeholder_tokens i0 ∧
          (∀ j, (j < i0)%nat → ¬ occurs_at label_tokens placeholder_tokens j) ∧
          crop_boundary label_tokens placeholder_tokens
          = Ok (take i0 label_tokens)) ∨
   ((∀ j, ¬ occurs_at label_tokens placeholder_tokens j) ∧
    crop_boundary label_tokens placeholder_tokens = Ok [])) ∧
  ((length label_tokens < length placeholder_tokens)%nat →
   (∀ j, ¬ occurs_at label_tokens placeholder_tokens j) ∧
   crop_boundary label_tokens placeholder_tokens ≠ Ok []).
Proof.
  intros HL HP. split.
  - intros Hfit. unfold crop_boundary.
    rewrite (to_size_t_wide_sub _ _ Hfit HL).
    pose proof (crop_search_fits (S (S (length label_tokens))) label_tokens
                  placeholder_tokens 0 Hfit HL) as Hrun.
    change (Z.of_nat 0) with 0 in Hrun.
    apply Hrun; [lia | lia | lia |]. intros j Hj. lia.
  - intros Hover. split.
    + intros j. apply occurs_at_too_far; lia.
    + pose proof (crop_search_overrun (S (S (length label_tokens))) label_tokens
                    placeholder_tokens 0 Hover HP) as Hrun.
      change (Z.of_nat 0) with 0 in Hrun.
      destruct Hrun as (k & Hk & _); [lia | lia |].
      unfold crop_boundary. by rewrite Hk.
Qed.

(** With one token per character, the boundary of [<user>*=*</user>]
    is the tokens of [<user>]; for the label [<>], shorter than the
    placeholder, the search does not end with the empty boundary. *)
Lemma crop_boundary_first_occurrence_witness :
  crop_boundary (char_tokenize "<user>*=*</user>") (char_tokenize "*=*")
  = Ok (char_tokenize "<user>") ∧
  crop_boundary (char_tokenize "<>") (char_tokenize "*=*") ≠ Ok [].
Proof.
  split.
  - destruct (crop_boundary_first_occurrence
                (char_tokenize "<user>*=*</user>") (char_tokenize "*=*"))
      as [Hfit _]; [vm_compute; reflexivity | vm_compute; reflexivity |].
    destruct Hfit as [(i0 & _ & _ & Hrun) | [_ Hrun]];
      [vm_compute; lia | |]; vm_compute; reflexivity.
  - destruct (crop_boundary_first_occurrence
                (char_tokenize "<>") (char_tokenize "*=*"))
      as [_ Hover]; [vm_compute; reflexivity | vm_compute; reflexivity |].
    apply Hover. vm_compute. lia.
Defined.

(** C10. For token vectors of admissible size the boundary search stays
    inside [label_tokens] when the placeholder is not longer than the
    label; when the placeholder is longer, the wrapped loop bound lets
    the search read [label_tokens] at an index that is not below its
    size. *)
Theorem crop_search_reads_past_end
    (label_tokens placeholder_tokens : llama_tokens) :
  Z.of_nat (length label_tokens) < 2 ^ 64 →
  Z.of_nat (length placeholder_tokens) < 2 ^ 64 →
  ((length placeholder_tokens ≤ length label_tokens)%nat →
   ∃ crop, crop_boundary label_tokens placeholder_tokens = Ok crop) ∧
  ((length label_tokens < length placeholder_tokens)%nat →
   ∃ k, crop_boundary label_tokens placeholder_tokens = OutOfBounds k ∧
        Z.of_nat (length label_tokens) ≤ k).
Proof.
  intros HL HP. split.
  - intros Hfit. unfold crop_boundary.
    rewrite (to_size_t_wide_sub _ _ Hfit HL).
    pose proof (crop_search_fits (S (S (length label_tokens))) label_tokens
                  placeholder_tokens 0 Hfit HL) as Hrun.
    change (Z.of_nat 0) with 0 in Hrun.
    destruct Hrun as [(i0 & _ & _ & Hrun) | [_ Hrun]];
      try lia; try (intros j Hj; lia); by eexists.
  - intros Hover.
    pose proof (crop_search_overrun (S (S (length label_tokens))) label_tokens
                  placeholder_tokens 0 Hover HP) as Hrun.
    change (Z.of_nat 0) with 0 in Hrun.
    apply Hrun; lia.
Qed.

(** The label [<>] against the placeholder [*=*]: two mismatches, then
    the read of [label_tokens[2]]; and the constructor on a runtime
    whose template renders [<>] ends there. *)
Lemma crop_search_reads_past_end_witness :
  crop_boundary (char_tokenize "<>") (char_tokenize "*=*") = OutOfBounds 2 ∧
  LlamaMicoContext_new blank_runtime (toy_params "mmproj.gguf" 4 1)
  = OutOfBounds 2.
Proof.
  destruct (crop_search_reads_past_end
              (char_tokenize "<>") (char_tokenize "*=*"))
    as [_ Hover]; [vm_compute; reflexivity | vm_compute; reflexivity |].
  destruct Hover as (k & Hk & Hkl); [vm_compute; lia|].
  split; vm_compute; reflexivity.
Defined.

(** ** Construction *)

Lemma LlamaMicoContext_new_Ok (rt : llama_runtime) (params : common_params)
    (c : LlamaMicoContext) :
  LlamaMicoContext_new rt params = Ok c →
  ∃ v,
    mtmd_init_from_file rt (Params.mmproj_path params)
                        (vision_context_params params) = Some v ∧
    ctx_vision c = Some v ∧
    crop_boundary (label_tokens_of rt params) (placeholder_tokens_of rt)
    = Ok (crop_tokens_lable c) ∧
    n_seq_max c
    = Cxx.to_int32 (Params.n_seq_max params - Params.cache_seq params) ∧
    kv_cache_seq c = Params.cache_seq params ∧
    antiprompt_tokens c = select_antiprompt rt params ∧
    process_seqs c = ∅ ∧ cmpl_to_seq c = ∅.
Proof.
  unfold LlamaMicoContext_new, init_vision_context, label_tokens_of,
    placeholder_tokens_of.
  destruct (calls_before_null_test _ _); [|discriminate].
  destruct (_ || _); [discriminate|].
  destruct (_ && _); [discriminate|].
  destruct (crop_boundary _ _) as [crop| | |]; try discriminate.
  destruct (mtmd_init_from_file _ _ _) as [v|]; [|discriminate].
  intros [= <-]. exists v. cbn. done.
Qed.




Lemma to_int32_small (z : Z) : Cxx.is_int32 z → Cxx.to_int32 z = z.
Proof.
  unfold Cxx.is_int32, Cxx.to_int32. intros Hz.
  rewrite Z.mod_small by lia. lia.
Qed.

(** C9. After construction, when the cache reservation is not negative
    and below the configured maximum, [n_seq_max] is the configured
    maximum minus the reservation, which is positive, and
    [kv_cache_seq] is the reservation. *)
Theorem n_seq_max_after_construction (rt : llama_runtime)
    (params : common_params) (c : LlamaMicoContext) :
  LlamaMicoContext_new rt params = Ok c →
  Cxx.is_int32 (Params.n_seq_max params) →
  0 ≤ Params.cache_seq params < Params.n_seq_max params →
  n_seq_max c = Params.n_seq_max params - Params.cache_seq params ∧
  0 < n_seq_max c ≤ Params.n_seq_max params ∧
  kv_cache_seq c = Params.cache_seq params.
Proof.
  intros Hc Hmax Hcache.
  apply LlamaMicoContext_new_Ok in Hc as (_ & _ & _ & _ & Hn & Hkv & _).
  rewrite Hn, Hkv, to_int32_small; [lia|].
  unfold Cxx.is_int32 in *. lia.
Qed.

(** Four sequences of which one is withheld for the cache leave three
    slots. *)
Lemma n_seq_max_after_construction_witness :
  ∃ c, LlamaMicoContext_new toy_runtime (toy_params "mmproj.gguf" 4 1) = Ok c ∧
       n_seq_max c = 3 ∧ kv_cache_seq c = 1.
Proof.
  destruct (LlamaMicoContext_new toy_runtime (toy_params "mmproj.gguf" 4 1))
    as [c| | |] eqn:Hc; try (vm_compute in Hc; discriminate Hc).
  exists c. split; [reflexivity|].
  destruct (n_seq_max_after_construction toy_runtime
              (toy_params "mmproj.gguf" 4 1) c Hc) as (Hn & _ & Hkv).
  - unfold Cxx.is_int32. cbn. lia.
  - cbn. lia.
  - split; [exact Hn | exact Hkv].
Defined.

(** * Further properties of the member functions *)

(** ** Which slot a reservation hands out *)

Lemma first_idle_seqZ_lowest (c : LlamaMicoContext) (len : nat) (a : Z) :
  0 ≤ a → a + Z.of_nat len ≤ 2 ^ 31 →
  let s := first_idle c (seqZ a (Z.of_nat len)) in
  (s = -1 ∧
   ∀ i, a ≤ i < a + Z.of_nat len → is_infering (seq_state_of c i) = true) ∨
  (a ≤ s < a + Z.of_nat len ∧
   is_infering (seq_state_of c s) = false ∧
   ∀ i, a ≤ i < s → is_infering (seq_state_of c i) = true).
Proof.
  revert a. induction len as [|len IH]; intros a Ha Hmax.
  - left. cbn. split; [done | lia].
  - rewrite seqZ_cons by lia. cbn [first_idle].
    rewrite to_size_t_small by lia.
    replace (Z.pred (Z.of_nat (S len))) with (Z.of_nat len) by lia.
    destruct (is_infering (seq_state_of c a)) eqn:Hbusy.
    + destruct (IH (Z.succ a)) as [[Hs Hall] | (Hs & Hidle & Hbelow)];
        [lia | lia | left | right]; cbv zeta.
      * split; [done|]. intros i Hi.
        destruct (decide (i = a)) as [->|Hne]; [done | apply Hall; lia].
      * split; [lia|]. split; [done|]. intros i Hi.
        destruct (decide (i = a)) as [->|Hne]; [done | apply Hbelow; lia].
    + right. cbv zeta. split; [lia|]. split; [done|]. lia.
Qed.

(** X1. A reservation that hands out a slot hands out the lowest slot
    that is not inferring; it is declined only when all slots are. *)
Theorem set_seq_id_lowest_idle (t : thread) (cmpl_id : Z) :
  Cxx.is_int32 (n_seq_max (self t)) →
  let s := (set_seq_id cmpl_id t).1 in
  (s ≠ -1 →
   0 ≤ s < n_seq_max (self t) ∧
   is_infering (seq_state_of (self t) s) = false ∧
   ∀ i, 0 ≤ i < s → is_infering (seq_state_of (self t) i) = true) ∧
  (s = -1 →
   ∀ i, 0 ≤ i < n_seq_max (self t) →
        is_infering (seq_state_of (self t) i) = true).
Proof.
  intros [_ Hmax] s. subst s. rewrite set_seq_id_run. cbn [fst].
  destruct (decide (0 ≤ n_seq_max (self t))) as [Hn|Hn].
  - pose proof (first_idle_seqZ_lowest (self t)
                  (Z.to_nat (n_seq_max (self t))) 0) as Hscan.
    rewrite Z2Nat.id in Hscan by done. cbv zeta in Hscan.
    destruct Hscan as [[Hs Hall] | (Hs & Hidle & Hbelow)]; [lia | lia | |].
    + split; [done|]. intros _ i Hi. apply Hall. lia.
    + split; [|lia]. intros _. split; [lia|]. split; [done|].
      intros i Hi. apply Hbelow. lia.
  - rewrite seqZ_nil by lia. cbn. split; [done|]. intros _ i Hi. lia.
Qed.

(** Slot 0 inferring, slots 1 and 2 idle: the reservation hands out
    slot 1. *)
Lemma set_seq_id_lowest_idle_witness :
  (set_seq_id 7 (on first_busy_context)).1 = 1 ∧
  is_infering (seq_state_of first_busy_context 0) = true ∧
  is_infering (seq_state_of first_busy_context 1) = false.
Proof.
  assert ((set_seq_id 7 (on first_busy_context)).1 = 1) as Hs
    by (vm_compute; reflexivity).
  destruct (set_seq_id_lowest_idle (on first_busy_context) 7) as [Hgot _].
  { unfold Cxx.is_int32. cbn. lia. }
  cbv zeta in Hgot. rewrite Hs in Hgot.
  destruct Hgot as (_ & Hidle & Hbelow); [lia|].
  split; [exact Hs|]. split; [apply Hbelow; lia | exact Hidle].
Defined.

Lemma first_idle_ext (c1 c2 : LlamaMicoContext) (slots : list Z) :
  (∀ i, is_infering (seq_state_of c1 i) = is_infering (seq_state_of c2 i)) →
  first_idle c1 slots = first_idle c2 slots.
Proof.
  intros Hsame. induction slots as [|i slots IH]; [done|].
  cbn. by rewrite Hsame, IH.
Qed.

(** X2. The answer of a reservation depends on the number of slots and
    on their inferring flags only, never on the mapping or on the
    completion id: it is the same after a release, and a second
    reservation made right after a first one is answered with the same
    slot. *)
Theorem set_seq_id_ignores_mapping (t1 t2 : thread) (id1 id2 : Z) :
  n_seq_max (self t1) = n_seq_max (self t2) →
  (∀ i, is_infering (seq_state_of (self t1) i)
        = is_infering (seq_state_of (self t2) i)) →
  (set_seq_id id1 t1).1 = (set_seq_id id2 t2).1 ∧
  (∀ seq_id, (set_seq_id id1 (erase_seq seq_id t1).2).1 = (set_seq_id id1 t1).1) ∧
  (set_seq_id id2 (set_seq_id id1 t1).2).1 = (set_seq_id id1 t1).1.
Proof.
  intros Hn Hflags. split; [|split].
  - rewrite !set_seq_id_run. cbn [fst]. rewrite Hn. by apply first_idle_ext.
  - intros seq_id. rewrite erase_seq_run, !set_seq_id_run. cbn [fst snd self].
    by apply first_idle_ext.
  - rewrite !set_seq_id_run. cbn [fst snd self].
    assert (n_seq_max (reserved id1 (self t1)) = n_seq_max (self t1)) as ->.
    { unfold reserved.
      destruct (touch_all_frame
                  (scanned (self t1) (seqZ 0 (n_seq_max (self t1)))) (self t1))
        as (_ & Hm & _).
      by destruct (bool_decide _). }
    apply first_idle_ext. intros i. by rewrite seq_state_of_reserved.
Qed.

(** On an idle two-slot context, reservations for the ids 10 and 20
    made one after the other, and a reservation made after a release,
    are all answered with slot 0. *)
Lemma set_seq_id_ignores_mapping_witness :
  let t := on (idle_context 2) in
  (set_seq_id 10 t).1 = 0 ∧
  (set_seq_id 20 (set_seq_id 10 t).2).1 = 0 ∧
  (set_seq_id 10 (erase_seq 0 t).2).1 = 0.
Proof.
  intros t.
  assert ((set_seq_id 10 t).1 = 0) as H0 by (vm_compute; reflexivity).
  destruct (set_seq_id_ignores_mapping t t 10 20 eq_refl (λ _, eq_refl))
    as (_ & Hrel & Hagain).
  split; [exact H0|]. split; [by rewrite Hagain|]. by rewrite Hrel.
Defined.

(** ** Reservation, release and lookup of other ids *)

(** X3. A reservation for one completion id changes nothing in what
    the lookup answers for any other id. *)
Theorem set_seq_id_keeps_other_ids (t : thread) (cmpl_id other : Z) :
  cmpl_id ≠ other →
  (get_seq_id other (set_seq_id cmpl_id t).2).1 = (get_seq_id other t).1.
Proof.
  intros Hne. rewrite set_seq_id_run, !get_seq_id_run. cbn [fst snd self].
  rewrite cmpl_to_seq_reserved.
  destruct (bool_decide _); [|done]. by rewrite lookup_insert_ne.
Qed.

(** Id 10 holds slot 1; a reservation for id 20 leaves that answer. *)
Lemma set_seq_id_keeps_other_ids_witness :
  let t := on (with_mapping {[10 := 1]} (idle_context 2)) in
  (get_seq_id 10 (set_seq_id 20 t).2).1 = 1 ∧
  (get_seq_id 20 (set_seq_id 20 t).2).1 = 0.
Proof.
  intros t. split.
  - rewrite (set_seq_id_keeps_other_ids t 20 10) by lia.
    vm_compute. reflexivity.
  - vm_compute. reflexivity.
Defined.

(** X4. Releasing a slot that completion ids map to removes the entry
    of the lowest of these ids and of no other id: every other id,
    also one that maps to the same slot, keeps its answer. *)
Theorem erase_seq_releases_lowest_id (t : thread) (seq_id cmpl_id : Z) :
  cmpl_to_seq (self t) !! cmpl_id = Some seq_id →
  (erase_seq seq_id t).1 = true ∧
  ∃ victim,
    cmpl_to_seq (self t) !! victim = Some seq_id ∧
    victim ≤ cmpl_id ∧
    (get_seq_id victim (erase_seq seq_id t).2).1 = -1 ∧
    ∀ other, other ≠ victim →
             (get_seq_id other (erase_seq seq_id t).2).1 = (get_seq_id other t).1.
Proof.
  intros Hid. rewrite erase_seq_run. split; [done|].
  destruct (erase_target_mapped seq_id cmpl_id (self t) Hid) as [Hv Hleast].
  exists (erase_target seq_id (self t)).
  split; [done|]. split; [by apply Hleast|]. split.
  - rewrite get_seq_id_run. cbn. by rewrite lookup_delete_eq.
  - intros other Hne. rewrite !get_seq_id_run. cbn.
    by rewrite lookup_delete_ne.
Qed.

(** The ids 10 and 20 both map to slot 0: one release removes the
    entry of id 10 and id 20 still maps to slot 0. *)
Lemma erase_seq_releases_lowest_id_witness :
  let t := on (with_mapping {[10 := 0; 20 := 0]} (idle_context 2)) in
  (get_seq_id 10 (erase_seq 0 t).2).1 = -1 ∧
  (get_seq_id 20 (erase_seq 0 t).2).1 = 0.
Proof.
  intros t.
  destruct (erase_seq_releases_lowest_id t 0 20) as (_ & victim & _ & _ & _ & _).
  { vm_compute. reflexivity. }
  split; vm_compute; reflexivity.
Defined.

(** X5. Every slot a lookup answers with is a slot of the context:
    this holds of the mapping after any execution of calls that started
    with it, so a lookup answers -1 or a slot below [n_seq_max]. *)
Theorem lookups_stay_in_range (cs : list call) (t : thread) (cmpl_id : Z) :
  slots_in_range (self t) →
  let t' := (perform_all cs t).2 in
  slots_in_range (self t') ∧
  n_seq_max (self t') = n_seq_max (self t) ∧
  ((get_seq_id cmpl_id t').1 = -1 ∨
   0 ≤ (get_seq_id cmpl_id t').1 < n_seq_max (self t)).
Proof.
  intros Hrange t'. subst t'.
  assert (slots_in_range (self (perform_all cs t).2) ∧
          n_seq_max (self (perform_all cs t).2) = n_seq_max (self t))
    as [Hfinal Hn].
  { revert t Hrange. induction cs as [|cl cs IH]; intros t Hrange; [done|].
    cbn [perform_all]. unfold op_bind.
    assert (slots_in_range (self (perform cl t).2) ∧
            n_seq_max (self (perform cl t).2) = n_seq_max (self t))
      as [Hstep Hnstep].
    { destruct cl as [k | id | id | s]; unfold perform, op_bind, op_ret.
      - rewrite get_seq_state_run. cbn [snd self]. split; [|done].
        intros id s Hs. apply (Hrange id s).
        by destruct (touch_all_frame [k] (self t)) as (<- & _).
      - rewrite set_seq_id_run. cbn [snd self].
        assert (n_seq_max (reserved id (self t)) = n_seq_max (self t)) as Hnr.
        { unfold reserved.
          destruct (touch_all_frame
                      (scanned (self t) (seqZ 0 (n_seq_max (self t)))) (self t))
            as (_ & Hm & _).
          by destruct (bool_decide _). }
        split; [|done]. intros id' s. rewrite Hnr, cmpl_to_seq_reserved.
        case_bool_decide as Hgot; [|apply Hrange].
        rewrite lookup_insert. case_decide; [|apply Hrange].
        intros [= <-].
        destruct (first_idle_is_idle _ _ Hgot) as [Hin _].
        apply elem_of_seqZ in Hin. lia.
      - rewrite get_seq_id_run. done.
      - rewrite erase_seq_run. cbn [snd self]. split; [|done].
        intros id s' Hs. cbn in Hs. apply lookup_delete_Some in Hs as [_ Hs].
        by apply (Hrange id s'). }
    destruct (perform cl t) as [[] t1]. cbn [snd] in *.
    destruct (IH t1 Hstep) as [H1 H2]. split; [done | congruence]. }
  split; [done|]. split; [done|].
  rewrite get_seq_id_run. cbn [fst].
  destruct (cmpl_to_seq (self (perform_all cs t).2) !! cmpl_id) as [s|] eqn:Hs;
    cbn; [right | by left].
  rewrite <- Hn. by apply (Hfinal cmpl_id s).
Qed.

(** Starting with an empty mapping on two slots, a thread reserves,
    releases and reserves again; the lookup then answers slot 0. *)
Lemma lookups_stay_in_range_witness :
  let t' := (perform_all [SetSeqId 7; EraseSeq 0; SetSeqId 8]
                         (on (idle_context 2))).2 in
  (get_seq_id 8 t').1 = 0 ∧ slots_in_range (self t').
Proof.
  intros t'. subst t'.
  destruct (lookups_stay_in_range [SetSeqId 7; EraseSeq 0; SetSeqId 8]
              (on (idle_context 2)) 8) as (Hrange & _ & _).
  { intros id s Hs. cbn in Hs. by rewrite lookup_empty in Hs. }
  split; [vm_compute; reflexivity | exact Hrange].
Defined.

(** ** The per-slot state *)

Lemma touch_touch (seq_id : Z) (c : LlamaMicoContext) :
  touch seq_id (touch seq_id c) = touch seq_id c.
Proof.
  unfold touch at 1. unfold map_subscript.
  assert (is_Some (process_seqs (touch seq_id c) !! seq_id)) as [st Hst].
  { unfold touch, map_subscript. cbn.
    destruct (process_seqs c !! seq_id) eqn:Hk; cbn.
    - by rewrite Hk.
    - by rewrite lookup_insert_eq. }
  rewrite Hst. cbn. unfold touch, set_process_seqs. cbn. reflexivity.
Qed.

(** X6. [get_seq_state] finds or creates: for every index, inside the
    slot range or not, it answers with the handle of that index, whose
    record afterwards is the one that was there or else a record with
    the initial values; the records of all other indices are as they
    were, and a second call changes nothing any more. *)
Theorem get_seq_state_finds_or_creates (t : thread) (seq_id : Z) :
  let r := get_seq_state seq_id t in
  r.1 = seq_id ∧
  process_seqs (self r.2) !! seq_id
  = Some (default LlamaSeqState_init (process_seqs (self t) !! seq_id)) ∧
  (∀ other, other ≠ seq_id →
            process_seqs (self r.2) !! other = process_seqs (self t) !! other) ∧
  self (get_seq_state seq_id r.2).2 = self r.2.
Proof.
  intros r. subst r. rewrite !get_seq_state_run. cbn [fst snd self].
  split; [done|]. split; [|split].
  - unfold touch, map_subscript. cbn.
    destruct (process_seqs (self t) !! seq_id) eqn:Hk; cbn.
    + by rewrite Hk.
    + by rewrite lookup_insert_eq.
  - intros other Hne. unfold touch, map_subscript. cbn.
    destruct (process_seqs (self t) !! seq_id); cbn; [done|].
    by rewrite lookup_insert_ne.
  - apply touch_touch.
Qed.

(** ** Construction *)

(** X7. No context is constructed when the model or the context is
    null: the constructor first hands the pointers to
    [llama_model_get_vocab], [common_sampler_init] and the constructor
    of [LlamaMemoryScheduler], and when these return it exits with
    status 1 at the null test, while a fault in the first of them ends
    the process there. With model and context present it exits with
    status 1 when neither the model nor the parameters provide a chat
    template. A context is constructed only when model and context
    exist and one of the two provides a template. *)
Theorem construction_needs_model_and_template
    (rt : llama_runtime) (params : common_params) :
  let llama_init := common_init_from_params rt params in
  (has_model llama_init = false ∨ has_context llama_init = false →
   (∀ c, LlamaMicoContext_new rt params ≠ Ok c) ∧
   (llama_model_get_vocab_null rt = Returns →
    common_sampler_init_null rt = Returns →
    LlamaMemoryScheduler_null rt = Returns →
    LlamaMicoContext_new rt params = ProcessExit 1)) ∧
  (∀ code, has_model llama_init = false →
           llama_model_get_vocab_null rt = Aborts code →
           LlamaMicoContext_new rt params = ProcessExit code) ∧
  (has_model llama_init = true → has_context llama_init = true →
   llama_model_chat_template rt = None →
   Params.chat_template params = EmptyString →
   LlamaMicoContext_new rt params = ProcessExit 1) ∧
  (∀ c, LlamaMicoContext_new rt params = Ok c →
        has_model llama_init = true ∧ has_context llama_init = true ∧
        (llama_model_chat_template rt ≠ None ∨
         Params.chat_template params ≠ EmptyString)).
Proof.
  intros llama_init. subst llama_init.
  unfold LlamaMicoContext_new, calls_before_null_test, handed.
  destruct (llama_model_get_vocab_null rt) as [|code1];
    destruct (common_sampler_init_null rt) as [|code2];
    destruct (LlamaMemoryScheduler_null rt) as [|code3];
    destruct (has_model (common_init_from_params rt params));
    destruct (has_context (common_init_from_params rt params));
    cbn [negb orb];
    (split; [|split; [|split]]);
    try (intros [Hnull | Hnull]; discriminate Hnull);
    try (intros _; split; [intros c; discriminate | intros; congruence]);
    try (intros code Hm Hcode; congruence);
    try (intros Hm Hc; discriminate);
    try (intros c; discriminate).
  all: try (intros _ _ -> ->; reflexivity).
  all: intros c; case_bool_decide as Hm; case_bool_decide as Hp; cbn;
    try discriminate; intros _; split; try done; split; try done; auto.
Qed.

(** Without a model the constructor exits at the null test when the
    runtime puts up with the null pointer, and in the sampler
    initialisation when that faults; without any chat template it
    exits; with the template named in the parameters it constructs. *)
Lemma construction_needs_model_and_template_witness :
  LlamaMicoContext_new no_model_runtime (toy_params "mmproj.gguf" 4 1)
  = ProcessExit 1 ∧
  LlamaMicoContext_new faulting_runtime (toy_params "mmproj.gguf" 4 1)
  = ProcessExit 139 ∧
  LlamaMicoContext_new no_template_runtime (toy_params "mmproj.gguf" 4 1)
  = ProcessExit 1 ∧
  ∃ c, LlamaMicoContext_new no_template_runtime
         (with_chat_template "vicuna" (toy_params "mmproj.gguf" 4 1)) = Ok c.
Proof.
  destruct (construction_needs_model_and_template no_model_runtime
              (toy_params "mmproj.gguf" 4 1)) as (Hmodel & _ & _ & _).
  destruct (construction_needs_model_and_template no_template_runtime
              (toy_params "mmproj.gguf" 4 1)) as (_ & _ & Htmpl & _).
  split.
  { destruct Hmodel as [_ Hexit]; [left; reflexivity|].
    apply Hexit; reflexivity. }
  split; [vm_compute; reflexivity|].
  split; [apply Htmpl; reflexivity|].
  eexists. vm_compute. reflexivity.
Defined.

Lemma select_antiprompt_cases (rt : llama_runtime) (params : common_params) :
  (Params.chat_template params = "vicuna"%string →
   select_antiprompt rt params = common_tokenize rt "ASSISTANT:") ∧
  (Params.chat_template params = "deepseek"%string →
   select_antiprompt rt params = common_tokenize rt "###") ∧
  (Params.chat_template params ≠ "vicuna"%string →
   Params.chat_template params ≠ "deepseek"%string →
   select_antiprompt rt params = []).
Proof.
  unfold select_antiprompt. split; [|split].
  - by intros ->.
  - by intros ->.
  - intros Hv Hd.
    apply String.eqb_neq in Hv. apply String.eqb_neq in Hd.
    by rewrite Hv, Hd.
Qed.

(** X8. A constructed context carries the tokens of [ASSISTANT:] as
    antiprompt for the chat template named vicuna, those of [###] for
    deepseek, and none for any other template name; in that last case
    [check_antiprompt] answers false whatever was generated. *)
Theorem antiprompt_for_legacy_templates_only
    (rt : llama_runtime) (params : common_params) (c : LlamaMicoContext) :
  LlamaMicoContext_new rt params = Ok c →
  (Params.chat_template params = "vicuna"%string →
   antiprompt_tokens c = common_tokenize rt "ASSISTANT:") ∧
  (Params.chat_template params = "deepseek"%string →
   antiprompt_tokens c = common_tokenize rt "###") ∧
  (Params.chat_template params ≠ "vicuna"%string →
   Params.chat_template params ≠ "deepseek"%string →
   antiprompt_tokens c = [] ∧
   ∀ evs generated_tokens,
     (check_antiprompt generated_tokens {| self := c; events := evs |}).1
     = false).
Proof.
  intros Hc.
  apply LlamaMicoContext_new_Ok in Hc as (_ & _ & _ & _ & _ & _ & Hanti & _).
  destruct (select_antiprompt_cases rt params) as (Hv & Hd & Hother).
  rewrite Hanti. split; [done|]. split; [done|].
  intros Hnv Hnd. split; [by apply Hother|].
  intros evs generated_tokens. rewrite check_antiprompt_unfold. cbn [self].
  rewrite Hanti, (Hother Hnv Hnd). reflexivity.
Qed.

(** Constructed for vicuna, the context stops on a generation that
    ends in [ASSISTANT:]; constructed with the model's own template, it
    never stops on the antiprompt. *)
Lemma antiprompt_for_legacy_templates_only_witness :
  (∃ c, LlamaMicoContext_new toy_runtime
          (with_chat_template "vicuna" (toy_params "mmproj.gguf" 4 1)) = Ok c ∧
        antiprompt_tokens c = char_tokenize "ASSISTANT:" ∧
        (check_antiprompt (char_tokenize "USER: hi ASSISTANT:") (on c)).1 = true) ∧
  (∃ c, LlamaMicoContext_new toy_runtime (toy_params "mmproj.gguf" 4 1) = Ok c ∧
        (check_antiprompt (char_tokenize "USER: hi ASSISTANT:") (on c)).1 = false).
Proof.
  split.
  - destruct (LlamaMicoContext_new toy_runtime
                (with_chat_template "vicuna" (toy_params "mmproj.gguf" 4 1)))
      as [c| | |] eqn:Hc; try (vm_compute in Hc; discriminate Hc).
    exists c. split; [reflexivity|].
    destruct (antiprompt_for_legacy_templates_only _ _ _ Hc) as (Hv & _ & _).
    specialize (Hv eq_refl). split; [exact Hv|].
    rewrite check_antiprompt_unfold. cbn [self on]. rewrite Hv.
    vm_compute. reflexivity.
  - destruct (LlamaMicoContext_new toy_runtime (toy_params "mmproj.gguf" 4 1))
      as [c| | |] eqn:Hc; try (vm_compute in Hc; discriminate Hc).
    exists c. split; [reflexivity|].
    destruct (antiprompt_for_legacy_templates_only _ _ _ Hc) as (_ & _ & Hother).
    destruct Hother as [_ Hnever]; [discriminate | discriminate |].
    apply Hnever.
Defined.

(** ** The antiprompt *)

(** X9. Only the end of the generation counts: a generation that ends
    with the antiprompt tokens stops whatever precedes them, and
    tokens put in front of a generation that is at least as long as the
    antiprompt do not change the answer. *)
Theorem check_antiprompt_looks_at_the_end
    (t : thread) (before generated_tokens : llama_tokens) :
  let anti := antiprompt_tokens (self t) in
  (anti ≠ [] → (check_antiprompt (before ++ anti) t).1 = true) ∧
  ((length anti ≤ length generated_tokens)%nat →
   (check_antiprompt (before ++ generated_tokens) t).1
   = (check_antiprompt generated_tokens t).1).
Proof.
  intros anti. split.
  - intros Hne. rewrite check_antiprompt_unfold. fold anti.
    rewrite bool_decide_eq_false_2 by done.
    rewrite length_app.
    rewrite (proj2 (Nat.ltb_ge _ _)) by lia. cbn [orb].
    replace (length before + length anti - length anti)%nat
      with (length before) by lia.
    rewrite drop_app_length. by apply std_equal_eq.
  - intros Hlen. rewrite !check_antiprompt_unfold. fold anti.
    rewrite length_app.
    rewrite (proj2 (Nat.ltb_ge (length before + length generated_tokens) _))
      by lia.
    rewrite (proj2 (Nat.ltb_ge (length generated_tokens) _)) by lia.
    destruct (bool_decide (anti = [])); [done|]. cbn [orb].
    rewrite drop_app_ge by lia. do 2 f_equal. lia.
Qed.

(** With the stop string [###]: a generation ending in it stops, and
    what comes before the last three tokens plays no role. *)
Lemma check_antiprompt_looks_at_the_end_witness :
  let t := on (with_antiprompt (char_tokenize "###") (idle_context 2)) in
  (check_antiprompt (char_tokenize "answer###") t).1 = true ∧
  (check_antiprompt (char_tokenize "###answer") t).1
  = (check_antiprompt (char_tokenize "swer") t).1.
Proof.
  intros t.
  destruct (check_antiprompt_looks_at_the_end t (char_tokenize "answer") [])
    as [Hstop _].
  destruct (check_antiprompt_looks_at_the_end t (char_tokenize "###an")
              (char_tokenize "swer")) as [_ Htail].
  split.
  - apply Hstop. discriminate.
  - apply Htail. vm_compute. lia.
Defined.

(** ** Capacity *)

(** X10. The constructor accepts a cache reservation that leaves no
    slot: when the reservation is not below the configured maximum,
    every reservation on the constructed context is declined, without
    a look at any per-slot state and without a change. *)
Theorem no_slot_left_declines_all (rt : llama_runtime) (params : common_params)
    (c : LlamaMicoContext) :
  LlamaMicoContext_new rt params = Ok c →
  Cxx.is_int32 (Params.n_seq_max params - Params.cache_seq params) →
  Params.n_seq_max params ≤ Params.cache_seq params →
  n_seq_max c ≤ 0 ∧
  ∀ evs cmpl_id,
    set_seq_id cmpl_id {| self := c; events := evs |}
    = (-1, {| self := c; events := evs ++ mapping_section [] |}).
Proof.
  intros Hc Hrange Hle.
  apply LlamaMicoContext_new_Ok in Hc as (_ & _ & _ & _ & Hn & _).
  rewrite to_int32_small in Hn by done.
  split; [lia|]. intros evs cmpl_id.
  rewrite set_seq_id_run. cbn [self events]. unfold reserved.
  rewrite seqZ_nil by lia. cbn. reflexivity.
Qed.

(** Two sequences, both withheld for the cache: no reservation is
    granted. *)
Lemma no_slot_left_declines_all_witness :
  ∃ c, LlamaMicoContext_new toy_runtime (toy_params "mmproj.gguf" 2 2) = Ok c ∧
       n_seq_max c = 0 ∧ (set_seq_id 7 (on c)).1 = -1.
Proof.
  destruct (LlamaMicoContext_new toy_runtime (toy_params "mmproj.gguf" 2 2))
    as [c| | |] eqn:Hc; try (vm_compute in Hc; discriminate Hc).
  exists c. split; [reflexivity|].
  destruct (no_slot_left_declines_all toy_runtime
              (toy_params "mmproj.gguf" 2 2) c Hc) as [Hn Hdecl].
  - unfold Cxx.is_int32. cbn. lia.
  - cbn. lia.
  - split.
    + apply LlamaMicoContext_new_Ok in Hc as (_ & _ & _ & _ & Hn' & _).
      rewrite Hn'. reflexivity.
    + unfold on. by rewrite Hdecl.
Defined.

(** X11. On a context that has just been constructed with a cache
    reservation below the configured maximum, no completion id is
    known, the first reservation hands out slot 0, and the lookup
    answers slot 0 for that id afterwards. *)
Theorem first_reservation_after_construction
    (rt : llama_runtime) (params : common_params) (c : LlamaMicoContext)
    (cmpl_id : Z) :
  LlamaMicoContext_new rt params = Ok c →
  Cxx.is_int32 (Params.n_seq_max params) →
  0 ≤ Params.cache_seq params < Params.n_seq_max params →
  (get_seq_id cmpl_id (on c)).1 = -1 ∧
  (set_seq_id cmpl_id (on c)).1 = 0 ∧
  (get_seq_id cmpl_id (set_seq_id cmpl_id (on c)).2).1 = 0.
Proof.
  intros Hc Hmax Hcache.
  apply LlamaMicoContext_new_Ok in Hc
    as (_ & _ & _ & _ & Hn & _ & _ & Hseqs & Hmap).
  rewrite to_int32_small in Hn by (unfold Cxx.is_int32 in *; lia).
  assert (first_idle c (seqZ 0 (n_seq_max c)) = 0) as Hfirst.
  { rewrite (first_idle_busy_below c 0).
    - rewrite bool_decide_eq_true_2 by lia. reflexivity.
    - unfold Cxx.is_int32 in *. lia.
    - lia.
    - intros i Hi. unfold seq_state_of. rewrite Hseqs, lookup_empty. cbn.
      rewrite bool_decide_eq_false_2 by lia. reflexivity. }
  rewrite set_seq_id_run, !get_seq_id_run. cbn [fst snd self on].
  rewrite Hmap, lookup_empty. split; [done|]. split; [done|].
  rewrite cmpl_to_seq_reserved, Hfirst.
  rewrite bool_decide_eq_true_2 by lia. by rewrite lookup_insert_eq.
Qed.

(** Four sequences, one withheld: the first request gets slot 0. *)
Lemma first_reservation_after_construction_witness :
  ∃ c, LlamaMicoContext_new toy_runtime (toy_params "mmproj.gguf" 4 1) = Ok c ∧
       (set_seq_id 7 (on c)).1 = 0 ∧
       (get_seq_id 7 (set_seq_id 7 (on c)).2).1 = 0.
Proof.
  destruct (LlamaMicoContext_new toy_runtime (toy_params "mmproj.gguf" 4 1))
    as [c| | |] eqn:Hc; try (vm_compute in Hc; discriminate Hc).
  exists c. split; [reflexivity|].
  destruct (first_reservation_after_construction toy_runtime
              (toy_params "mmproj.gguf" 4 1) c 7 Hc) as (_ & Hset & Hget).
  - unfold Cxx.is_int32. cbn. lia.
  - cbn. lia.
  - split; [exact Hset | exact Hget].
Defined.

(** ** The crop boundary at the edges *)

(** X12. For an empty placeholder the search stops at index 0 in its
    first step and the boundary is empty, whatever the label. *)
Theorem crop_boundary_empty_placeholder (label_tokens : llama_tokens) :
  crop_boundary label_tokens [] = Ok [].
Proof.
  unfold crop_boundary. cbn [crop_search crop_match_at].
  assert (Cxx.size_le 0
            (Cxx.size_sub (Z.of_nat (length label_tokens)) (Z.of_nat (length (@nil llama_token))))
          = true) as ->.
  { unfold Cxx.size_le, Cxx.size_sub, Cxx.to_size_t, Cxx.size_modulus.
    apply Z.leb_le. rewrite Z.mod_0_l by lia.
    apply Z.mod_pos_bound. lia. }
  reflexivity.
Qed.

(** The rendered user turn [<user>*=*</user>], one token per
    character: the label is the tokens of [<user>], then the
    placeholder, then the rest, and the boundary is the tokens of
    [<user>]. *)
Lemma crop_boundary_splits_witness :
  crop_boundary (char_tokenize "<user>" ++ char_tokenize "*=*"
                 ++ char_tokenize "</user>") (char_tokenize "*=*")
  = Ok (char_tokenize "<user>").
Proof.
  apply crop_boundary_splits.
  - vm_compute. reflexivity.
  - intros j Hj. unfold occurs_at.
    do 6 (destruct j as [|j]; [vm_compute; discriminate|]).
    vm_compute in Hj. lia.
Defined.

(** X14. When the placeholder is not longer than the label and occurs
    in it, the search ends with a boundary that the placeholder
    follows immediately in the label, and the placeholder does not
    occur at any index inside the boundary. *)
Theorem crop_boundary_cuts_before_placeholder
    (label_tokens placeholder_tokens : llama_tokens) (i : nat) :
  Z.of_nat (length label_tokens) < 2 ^ 64 →
  (length placeholder_tokens ≤ length label_tokens)%nat →
  occurs_at label_tokens placeholder_tokens i →
  ∃ crop post,
    crop_boundary label_tokens placeholder_tokens = Ok crop ∧
    label_tokens = crop ++ placeholder_tokens ++ post ∧
    ∀ j, (j < length crop)%nat → ¬ occurs_at label_tokens placeholder_tokens j.
Proof.
  intros HL Hfit Hocc. unfold crop_boundary.
  rewrite (to_size_t_wide_sub _ _ Hfit HL).
  pose proof (crop_search_fits (S (S (length label_tokens))) label_tokens
                placeholder_tokens 0 Hfit HL) as Hrun.
  change (Z.of_nat 0) with 0 in Hrun.
  destruct Hrun as [(i0 & Hocc0 & Hfirst & ->) | [Hnone _]];
    try lia; try (intros j Hj; lia).
  - exists (take i0 label_tokens),
           (drop (length placeholder_tokens) (drop i0 label_tokens)).
    split; [done|]. split.
    + unfold occurs_at in Hocc0.
      rewrite <- (take_drop i0 label_tokens) at 1. f_equal.
      rewrite <- (take_drop (length placeholder_tokens)
                            (drop i0 label_tokens)) at 1.
      by rewrite Hocc0.
    + intros j Hj. apply Hfirst. rewrite length_take in Hj. lia.
  - by apply Hnone in Hocc.
Qed.

(** The label [ab*=*cd*=*] holds the placeholder twice; the boundary
    is cut before the first. *)
Lemma crop_boundary_cuts_before_placeholder_witness :
  ∃ post,
    crop_boundary (char_tokenize "ab*=*cd*=*") (char_tokenize "*=*")
    = Ok (char_tokenize "ab") ∧
    char_tokenize "ab*=*cd*=*"
    = char_tokenize "ab" ++ char_tokenize "*=*" ++ post.
Proof.
  destruct (crop_boundary_cuts_before_placeholder
              (char_tokenize "ab*=*cd*=*") (char_tokenize "*=*") 7)
    as (crop & post & Hrun & Hsplit & _).
  - vm_compute. reflexivity.
  - vm_compute. lia.
  - vm_compute. reflexivity.
  - assert (crop = char_tokenize "ab") as ->.
    { assert (crop_boundary (char_tokenize "ab*=*cd*=*") (char_tokenize "*=*")
              = Ok (char_tokenize "ab")) as Hc by (vm_compute; reflexivity).
      rewrite Hc in Hrun. by injection Hrun as <-. }
    exists post. split; [exact Hrun | exact Hsplit].
Defined.

(** ** Release at the edges *)

(** X15. Releasing a slot that no completion id maps to leaves the
    mapping as it is whenever the completion id [SIZE_MAX] is not in
    use; the answer is true all the same. *)
Theorem erase_seq_unmapped_keeps_mapping (t : thread) (seq_id : Z) :
  (∀ id, cmpl_to_seq (self t) !! id ≠ Some seq_id) →
  cmpl_to_seq (self t) !! Cxx.SIZE_MAX = None →
  erase_seq seq_id t
  = (true, {| self := self t; events := events t ++ mapping_section [] |}).
Proof.
  intros Hno Hmax. rewrite erase_seq_run.
  rewrite erase_target_unmapped by done.
  rewrite delete_id by done. by rewrite set_cmpl_to_seq_same.
Qed.

(** Id 10 holds slot 1; releasing slot 0 changes nothing. *)
Lemma erase_seq_unmapped_keeps_mapping_witness :
  let t := on (with_mapping {[10 := 1]} (idle_context 2)) in
  (erase_seq 0 t).1 = true ∧ self (erase_seq 0 t).2 = self t.
Proof.
  intros t.
  rewrite (erase_seq_unmapped_keeps_mapping t 0).
  - split; reflexivity.
  - intros id. cbn. rewrite lookup_singleton. case_decide; congruence.
  - reflexivity.
Defined.

(** X16. Reserving for a completion id that is not in the mapping and
    then releasing the slot that was handed out, a slot no other id
    maps to, gives the mapping back as it was. *)
Theorem erase_seq_undoes_set_seq_id (t : thread) (cmpl_id : Z) :
  let r := set_seq_id cmpl_id t in
  r.1 ≠ -1 →
  cmpl_to_seq (self t) !! cmpl_id = None →
  (∀ id, cmpl_to_seq (self t) !! id ≠ Some r.1) →
  (erase_seq r.1 r.2).1 = true ∧
  cmpl_to_seq (self (erase_seq r.1 r.2).2) = cmpl_to_seq (self t).
Proof.
  intros r Hgot Hnew Hfree. subst r. rewrite erase_seq_run. split; [done|].
  revert Hgot Hfree. rewrite set_seq_id_run. cbn [fst snd self].
  set (s := first_idle (self t) (seqZ 0 (n_seq_max (self t)))).
  intros Hgot Hfree.
  assert (cmpl_to_seq (reserved cmpl_id (self t))
          = <[cmpl_id := s]> (cmpl_to_seq (self t))) as Hmap.
  { rewrite cmpl_to_seq_reserved. fold s. by rewrite bool_decide_eq_true_2. }
  destruct (erase_target_mapped s cmpl_id (reserved cmpl_id (self t)))
    as [Hv _].
  { rewrite Hmap. apply lookup_insert_eq. }
  assert (erase_target s (reserved cmpl_id (self t)) = cmpl_id) as ->.
  { destruct (decide (erase_target s (reserved cmpl_id (self t)) = cmpl_id))
      as [|Hne]; [done|].
    rewrite Hmap, lookup_insert_ne in Hv by done. by apply Hfree in Hv. }
  rewrite Hmap. rewrite delete_insert_eq. by apply delete_id.
Qed.

(** Id 10 holds slot 1 while slot 0 is handed out to id 7 and released
    again: the mapping holds id 10 only, as before. *)
Lemma erase_seq_undoes_set_seq_id_witness :
  let t := on (with_mapping {[10 := 1]} (idle_context 2)) in
  (set_seq_id 7 t).1 = 0 ∧
  cmpl_to_seq (self (erase_seq 0 (set_seq_id 7 t).2).2) = {[10 := 1]}.
Proof.
  intros t.
  assert ((set_seq_id 7 t).1 = 0) as H0 by (vm_compute; reflexivity).
  destruct (erase_seq_undoes_set_seq_id t 7) as [_ Hback].
  - rewrite H0. lia.
  - reflexivity.
  - rewrite H0. intros id. cbn. rewrite lookup_singleton.
    case_decide; congruence.
  - split; [exact H0|]. rewrite H0 in Hback. exact Hback.
Defined.

(** * The mutexes, function by function *)




(** * Claims that fail as they are written *)

(** The claim of C7 as it is written fails for an id whose slot was
    released: the ids 20 and 10 are both given slot 0, the release of
    slot 0 removes the entry of id 10 only, and the lookup for id 20
    still answers slot 0. *)
Lemma released_slot_still_looked_up :
  let t1 := (set_seq_id 20 (on (idle_context 2))).2 in
  let t2 := (set_seq_id 10 t1).2 in
  let t3 := (erase_seq 0 t2).2 in
  (set_seq_id 20 (on (idle_context 2))).1 = 0 ∧
  (set_seq_id 10 t1).1 = 0 ∧
  (erase_seq 0 t2).1 = true ∧
  (get_seq_id 10 t3).1 = -1 ∧
  (get_seq_id 20 t3).1 = 0.
Proof. vm_compute. repeat split. Qed.

(** The claim of C8 as it is written fails: the reservation on an idle
    context without any per-slot record goes through [get_seq_state]
    for slot 0 and leaves a record for it in [process_seqs]. *)
Lemma set_seq_id_creates_state_record :
  let t := on (idle_context 2) in
  (set_seq_id 7 t).1 = 0 ∧
  process_seqs (self t) = ∅ ∧
  process_seqs (self (set_seq_id 7 t).2) = {[0 := LlamaSeqState_init]} ∧
  process_seqs (self (set_seq_id 7 t).2) ≠ process_seqs (self t).
Proof.
  assert (process_seqs (self (set_seq_id 7 (on (idle_context 2))).2)
          = {[0 := LlamaSeqState_init]}) as Hafter by (vm_compute; reflexivity).
  cbv zeta. rewrite Hafter. split; [vm_compute; reflexivity|].
  split; [reflexivity|]. split; [reflexivity|].
  intros Heq. apply (f_equal (λ m : gmap Z LlamaSeqState, m !! 0)) in Heq.
  cbn in Heq. rewrite lookup_singleton_eq, lookup_empty in Heq. discriminate.
Qed.
